(** * BIP-39 mnemonic codec (package bip39): a shallow embedding and its properties

    The development follows the two source files of the package:
    [bip39_utils.go] (bit-string codec, binary search, entropy generation)
    and [bip39_mnemonic.go] (mnemonic encoding, decoding, validation and
    seed derivation).

    Conventions of the embedding:
    - a Go [string] is its sequence of bytes, written [list ascii];
    - a Go [[]byte] is a [list byte]; a slice that may be [nil] is an
      [option (list byte)], [None] being [nil];
    - a Go [int] is a [Z] (all lengths met here are far below 2^63);
    - a Go [error] value is an [option error], [None] being [nil];
    - a run-time panic (slice or index out of range) is the outcome [Panic];
      loops that are not counted loops run on fuel, and running out of
      fuel is the separate outcome [Timeout]. *)

From Stdlib Require Import String Ascii.
From Stdlib Require Import ZArith List Bool Lia Sorted.
From Stdlib Require Import Strings.Byte.
Import ListNotations.

Local Open Scope char_scope.
Local Open Scope Z_scope.

(* ================================================================= *)
(** ** Outcomes of a Go call *)

Inductive exec (A : Type) : Type :=
| Ret (a : A)
| Panic
| Timeout.

Arguments Ret {A} a.
Arguments Panic {A}.
Arguments Timeout {A}.

Definition bind {A B : Type} (m : exec A) (k : A -> exec B) : exec B :=
  match m with
  | Ret a => k a
  | Panic => Panic
  | Timeout => Timeout
  end.

Notation "x <- m ;; k" := (bind m (fun x => k))
  (at level 61, m at next level, right associativity).

(* ================================================================= *)
(** ** Go strings, slices and the run-time checks on them *)

Definition gostring : Type := list ascii.

Definition lit (s : string) : gostring := list_ascii_of_string s.

Definition len {A : Type} (l : list A) : Z := Z.of_nat (length l).

(** [s[lo:hi]]: panics unless [0 <= lo <= hi <= len(s)]. *)
Definition slice {A : Type} (s : list A) (lo hi : Z) : exec (list A) :=
  if (0 <=? lo) && (lo <=? hi) && (hi <=? len s)
  then Ret (firstn (Z.to_nat (hi - lo)) (skipn (Z.to_nat lo) s))
  else Panic.

(** [s[i]]: panics unless [0 <= i < len(s)]. *)
Definition index {A : Type} (s : list A) (i : Z) : exec A :=
  if (0 <=? i) && (i <? len s)
  then match nth_error s (Z.to_nat i) with
       | Some a => Ret a
       | None => Panic
       end
  else Panic.

Definition gostring_eqb (a b : gostring) : bool :=
  if list_eq_dec ascii_dec a b then true else false.

(** Comparison of Go strings: lexicographic on the unsigned bytes. *)
Fixpoint gostring_compare (a b : gostring) : comparison :=
  match a, b with
  | [], [] => Eq
  | [], _ :: _ => Lt
  | _ :: _, [] => Gt
  | x :: a', y :: b' =>
      match N.compare (N_of_ascii x) (N_of_ascii y) with
      | Eq => gostring_compare a' b'
      | c => c
      end
  end.

(** [a >= b] on strings. *)
Definition gostring_geb (a b : gostring) : bool :=
  match gostring_compare a b with
  | Lt => false
  | _ => true
  end.

Definition gostring_ltb (a b : gostring) : bool :=
  match gostring_compare a b with
  | Lt => true
  | _ => false
  end.

(** [[]byte(s)] *)
Definition bytes_of_gostring (s : gostring) : list byte := map byte_of_ascii s.

(** A possibly-nil slice read as a sequence ([len] and [range] treat [nil]
    as empty). *)
Definition elems (s : option (list byte)) : list byte :=
  match s with
  | Some l => l
  | None => []
  end.

(* ================================================================= *)
(** ** Errors *)

(** The two sentinel errors of package strconv. *)
Inductive strconv_err : Type := ErrSyntax | ErrRange.

Inductive error : Type :=
| ErrWordsNum
| ErrInvalidWord
| ErrChecksum
| ErrBinaryString
| ErrEntropyBitLen
| NumError (Func : gostring) (Num : gostring) (Err : strconv_err)
| RandError (msg : gostring).

(* ================================================================= *)
(** ** Library functions used by the package *)

(** *** fmt: the verb [%.Nb] on an integer

    The digits of the magnitude in base 2, most significant first, padded
    on the left with zeros up to the precision; a minus sign goes first.
    With precision 0 the value 0 prints as nothing. *)

Fixpoint bin_digits_pos (p : positive) : gostring :=
  match p with
  | xH => ["1"]
  | xO q => bin_digits_pos q ++ ["0"]
  | xI q => bin_digits_pos q ++ ["1"]
  end.

Definition bin_digits (n : N) : gostring :=
  match n with
  | N0 => ["0"]
  | Npos p => bin_digits_pos p
  end.

Definition Sprintf_prec_b (prec : nat) (v : Z) : gostring :=
  if Nat.eqb prec 0 && (v =? 0) then []
  else
    let ds := bin_digits (Z.abs_N v) in
    let padded := repeat "0" (prec - length ds) ++ ds in
    if v <? 0 then "-" :: padded else padded.

(** *** strconv.ParseUint and strconv.ParseInt, for [2 <= base <= 36] and
    [0 < bitSize <= 64] (the package passes base 2 and bitSize 16). *)

Definition lower (c : Z) : Z := Z.lor c 32.

Definition code (c : ascii) : Z := Z.of_N (N_of_ascii c).

(** The value of one digit character, if it is one. *)
Definition digit_val (c : ascii) : option Z :=
  let c := code c in
  if (48 <=? c) && (c <=? 57) then Some (c - 48)
  else if (97 <=? lower c) && (lower c <=? 122) then Some (lower c - 97 + 10)
  else None.

Definition maxUint64 : Z := 2 ^ 64 - 1.

(** The loop of ParseUint over the bytes of [s]; the result is the value
    with the sentinel error met, if any. *)
Fixpoint ParseUint_loop (s : gostring) (base cutoff maxVal n : Z)
  : Z * option strconv_err :=
  match s with
  | [] => (n, None)
  | c :: rest =>
      match digit_val c with
      | None => (0, Some ErrSyntax)
      | Some d =>
          if d >=? base then (0, Some ErrSyntax)
          else if n >=? cutoff then (maxVal, Some ErrRange)
          else
            let n := (n * base) mod 2 ^ 64 in
            let n1 := (n + d) mod 2 ^ 64 in
            if (n1 <? n) || (n1 >? maxVal) then (maxVal, Some ErrRange)
            else ParseUint_loop rest base cutoff maxVal n1
      end
  end.

Definition ParseUint (s : gostring) (base bitSize : Z) : Z * option error :=
  match s with
  | [] => (0, Some (NumError (lit "ParseUint") s ErrSyntax))
  | _ =>
      let cutoff := maxUint64 / base + 1 in
      let maxVal := 2 ^ bitSize - 1 in
      match ParseUint_loop s base cutoff maxVal 0 with
      | (n, None) => (n, None)
      | (n, Some e) => (n, Some (NumError (lit "ParseUint") s e))
      end
  end.

Definition ParseInt (s : gostring) (base bitSize : Z) : Z * option error :=
  match s with
  | [] => (0, Some (NumError (lit "ParseInt") s ErrSyntax))
  | c0 :: rest =>
      let s0 := s in
      let '(neg, s) :=
        if (c0 =? "+")%char then (false, rest)
        else if (c0 =? "-")%char then (true, rest)
        else (false, s) in
      let '(un, err) := ParseUint s base bitSize in
      match err with
      | Some (NumError _ _ ErrSyntax) =>
          (0, Some (NumError (lit "ParseInt") s0 ErrSyntax))
      | Some (NumError _ _ ErrRange) | None =>
          let cutoff := 2 ^ (bitSize - 1) in
          if negb neg && (un >=? cutoff)
          then (cutoff - 1, Some (NumError (lit "ParseInt") s0 ErrRange))
          else if neg && (un >? cutoff)
          then (- cutoff, Some (NumError (lit "ParseInt") s0 ErrRange))
          else (if neg then - un else un, None)
      | Some e => (0, Some e)
      end
  end.

(** [byte(v)] on an integer: the low eight bits. *)
Definition byte_of_Z (v : Z) : byte :=
  match Byte.of_N (Z.to_N (v mod 256)) with
  | Some b => b
  | None => x00
  end.

(** *** sort.Search and sort.SearchStrings *)

Fixpoint Search_loop (fuel : nat) (f : Z -> exec bool) (i j : Z) : exec Z :=
  match fuel with
  | O => Timeout
  | S fuel' =>
      if i <? j then
        let h := Z.shiftr (i + j) 1 in
        b <- f h ;;
        if negb b then Search_loop fuel' f (h + 1) j
        else Search_loop fuel' f i h
      else Ret i
  end.

Definition sort_Search (n : Z) (f : Z -> exec bool) : exec Z :=
  Search_loop (S (Z.to_nat n)) f 0 n.

Definition sort_SearchStrings (a : list gostring) (x : gostring) : exec Z :=
  sort_Search (len a) (fun i => ai <- index a i ;; Ret (gostring_geb ai x)).

(** *** strings.Split and strings.Join with a one-byte separator *)

Fixpoint strings_Split (s : gostring) (sep : ascii) : list gostring :=
  match s with
  | [] => [[]]
  | c :: rest =>
      if (c =? sep)%char then [] :: strings_Split rest sep
      else match strings_Split rest sep with
           | w :: ws => (c :: w) :: ws
           | [] => [[c]]
           end
  end.

Fixpoint strings_Join (elems : list gostring) (sep : gostring) : gostring :=
  match elems with
  | [] => []
  | [w] => w
  | w :: ws => w ++ sep ++ strings_Join ws sep
  end.

(** Lookup in a [map[int]bool]: a missing key reads as [false]. *)
Fixpoint map_get (m : list (Z * bool)) (k : Z) : bool :=
  match m with
  | [] => false
  | (k', v) :: m' => if k =? k' then v else map_get m' k
  end.

(* ================================================================= *)
(** ** bip39_utils.go *)

(** [bytesToBinaryString]: each byte as [%.8b], in order. *)
Fixpoint bytesToBinaryString (slice : list byte) : gostring :=
  match slice with
  | [] => []
  | b :: rest => Sprintf_prec_b 8 (Z.of_N (Byte.to_N b)) ++ bytesToBinaryString rest
  end.

(** The loop of [binaryStringToBytes]: [i] advances by 8 while
    [i < len(binStr)]. *)
Fixpoint binaryStringToBytes_loop (fuel : nat) (binStr : gostring) (i : Z)
    (acc : list byte) : exec (option (list byte) * option error) :=
  match fuel with
  | O => Timeout
  | S fuel' =>
      if i <? len binStr then
        byteStrBin <- slice binStr i (i + 8) ;;
        let '(byteVal, err) := ParseInt byteStrBin 2 16 in
        match err with
        | Some e => Ret (None, Some e)
        | None =>
            binaryStringToBytes_loop fuel' binStr (i + 8) (acc ++ [byte_of_Z byteVal])
        end
      else Ret (Some acc, None)
  end.

Definition binaryStringToBytes (binStr : gostring)
  : exec (option (list byte) * option error) :=
  if negb (Z.rem (len binStr) 8 =? 0) then Ret (None, Some ErrBinaryString)
  else binaryStringToBytes_loop (S (length binStr)) binStr 0 [].

(* ================================================================= *)
(** ** The package, over its external collaborators *)

Section Bip39.

(** The English word table [wordsListEn] (a package-level slice defined in
    a file of its own), SHA-256, PBKDF2 with its hash constructor, and the
    system random source. *)
Variable wordsListEn : list gostring.
Variable sha256_Sum256 : list byte -> list byte.
Variable Hash : Type.
Variable sha512_New : Hash.
Variable pbkdf2_Key : list byte -> list byte -> Z -> Z -> Hash -> list byte.
Variable RandSrc : Type.
Variable rand_Read : RandSrc -> list byte -> RandSrc * list byte * option error.

(** [stringBinarySearch]: the index of [elem] in [slice], or -1. *)
Definition stringBinarySearch (slice : list gostring) (elem : gostring) : exec Z :=
  idx <- sort_SearchStrings slice elem ;;
  if negb (idx =? len slice) then
    w <- index slice idx ;;
    if gostring_eqb w elem then Ret idx else Ret (-1)
  else Ret (-1).

Definition EntropyBits128 : Z := 128.
Definition EntropyBits160 : Z := 160.
Definition EntropyBits192 : Z := 192.
Definition EntropyBits224 : Z := 224.
Definition EntropyBits256 : Z := 256.

Definition entropyBitLenMap : list (Z * bool) :=
  [ (EntropyBits128, true); (EntropyBits160, true); (EntropyBits192, true);
    (EntropyBits224, true); (EntropyBits256, true) ].

Definition validateEntropyBitLen (bitLen : Z) : option error :=
  if negb (map_get entropyBitLenMap bitLen) then Some ErrEntropyBitLen else None.

(** [GenerateEntropy]: the buffer made by [make] is zeroed, [rand.Read]
    writes into it, and the buffer goes back with whatever error
    [rand.Read] gave. *)
Definition GenerateEntropy (r : RandSrc) (bitLen : Z)
  : RandSrc * option (list byte) * option error :=
  match validateEntropyBitLen bitLen with
  | Some err => (r, None, Some err)
  | None =>
      let entropy := repeat x00 (Z.to_nat (Z.quot bitLen 8)) in
      let '(r', entropy, err) := rand_Read r entropy in
      (r', Some entropy, err)
  end.

(* ----------------------------------------------------------------- *)
(** *** bip39_mnemonic.go *)

Definition WordsNum12 : Z := 12.
Definition WordsNum15 : Z := 15.
Definition WordsNum18 : Z := 18.
Definition WordsNum21 : Z := 21.
Definition WordsNum24 : Z := 24.

Definition wordBitLen : Z := 11.
Definition seedSaltMod : gostring := lit "mnemonic".
Definition seedPbkdf2KeyLen : Z := 64.
Definition seedPbkdf2Round : Z := 2048.

Definition wordsNumMap : list (Z * bool) :=
  [ (WordsNum12, true); (WordsNum15, true); (WordsNum18, true);
    (WordsNum21, true); (WordsNum24, true) ].

Record Mnemonic : Type := { Words : gostring }.

Definition validateWordsNum (wordsNum : Z) : option error :=
  if negb (map_get wordsNumMap wordsNum) then Some ErrWordsNum else None.

(** [entropyChecksumBinStr]: the first [len(slice)/4] digits of the hash
    written in binary. *)
Definition entropyChecksumBinStr (slice_ : list byte) : exec gostring :=
  let hash := sha256_Sum256 slice_ in
  let hashStr := bytesToBinaryString hash in
  let chksumBitLen := Z.quot (len slice_) 4 in
  slice hashStr 0 chksumBitLen.

(** The counted loop of [MnemonicFromEntropy]: [n] iterations remain,
    [i] is the loop variable. *)
Fixpoint MnemonicFromEntropy_loop (n : nat) (i : Z) (mnemonicBinStr : gostring)
    (mnemonic : list gostring) : exec (list gostring) :=
  match n with
  | O => Ret mnemonic
  | S n' =>
      wordStrBin <- slice mnemonicBinStr (i * wordBitLen) ((i + 1) * wordBitLen) ;;
      let '(wordIdx, _) := ParseInt wordStrBin 2 16 in
      w <- index wordsListEn wordIdx ;;
      MnemonicFromEntropy_loop n' (i + 1) mnemonicBinStr (mnemonic ++ [w])
  end.

Definition MnemonicFromEntropy (entropy : list byte)
  : exec (option Mnemonic * option error) :=
  match validateEntropyBitLen (len entropy * 8) with
  | Some err => Ret (None, Some err)
  | None =>
      let entropyBinStr := bytesToBinaryString entropy in
      chksumBinStr <- entropyChecksumBinStr entropy ;;
      let mnemonicBinStr := entropyBinStr ++ chksumBinStr in
      let mnemonicLen := Z.quot (len mnemonicBinStr) wordBitLen in
      mnemonic <- MnemonicFromEntropy_loop (Z.to_nat mnemonicLen) 0 mnemonicBinStr [] ;;
      Ret (Some {| Words := strings_Join mnemonic (lit " ") |}, None)
  end.

(** [MnemonicFromWordsNum]: the error of [GenerateEntropy] is dropped
    (the blank identifier), only its buffer is used. *)
Definition MnemonicFromWordsNum (r : RandSrc) (wordsNum : Z)
  : RandSrc * exec (option Mnemonic * option error) :=
  match validateWordsNum wordsNum with
  | Some err => (r, Ret (None, Some err))
  | None =>
      let entropyBitLen := wordsNum * 11 - Z.quot wordsNum 3 in
      let '(r', entropy, _) := GenerateEntropy r entropyBitLen in
      (r', MnemonicFromEntropy (elems entropy))
  end.

Definition MnemonicFromString (mnemonic : gostring) : Mnemonic :=
  {| Words := mnemonic |}.

(** The [range] loop of [getBinaryStrings] over the words, writing into
    [strBuf]; the result is the buffer, or the error that stops the loop. *)
Fixpoint getBinaryStrings_loop (wordsList : list gostring) (strBuf : gostring)
  : exec (gostring * option error) :=
  match wordsList with
  | [] => Ret (strBuf, None)
  | word :: rest =>
      wordIdx <- stringBinarySearch wordsListEn word ;;
      if wordIdx =? -1 then Ret ([], Some ErrInvalidWord)
      else getBinaryStrings_loop rest (strBuf ++ Sprintf_prec_b 11 wordIdx)
  end.

Definition getBinaryStrings (mnemonic : Mnemonic)
  : exec (gostring * gostring * option error) :=
  let wordsList := strings_Split (Words mnemonic) " " in
  match validateWordsNum (len wordsList) with
  | Some err => Ret ([], [], Some err)
  | None =>
      r <- getBinaryStrings_loop wordsList [] ;;
      match r with
      | (_, Some err) => Ret ([], [], Some err)
      | (mnemonicBinStr, None) =>
          let chksumLen := Z.quot (len mnemonicBinStr) 33 in
          let chksumIdx := len mnemonicBinStr - chksumLen in
          e <- slice mnemonicBinStr 0 chksumIdx ;;
          c <- slice mnemonicBinStr chksumIdx (len mnemonicBinStr) ;;
          Ret (e, c, None)
      end
  end.

Definition ToEntropy (mnemonic : Mnemonic)
  : exec (option (list byte) * option error) :=
  r <- getBinaryStrings mnemonic ;;
  let '(entropyBinStr, chksumBinStr, err) := r in
  match err with
  | Some e => Ret (None, Some e)
  | None =>
      r <- binaryStringToBytes entropyBinStr ;;
      let '(entropy, _) := r in
      chksumComp <- entropyChecksumBinStr (elems entropy) ;;
      if negb (gostring_eqb chksumComp chksumBinStr)
      then Ret (None, Some ErrChecksum)
      else Ret (entropy, None)
  end.

Definition Validate (mnemonic : Mnemonic) : exec (option error) :=
  r <- getBinaryStrings mnemonic ;;
  let '(entropyBinStr, chksumBinStr, err) := r in
  match err with
  | Some e => Ret (Some e)
  | None =>
      r <- binaryStringToBytes entropyBinStr ;;
      let '(entropy, _) := r in
      chksumComp <- entropyChecksumBinStr (elems entropy) ;;
      if negb (gostring_eqb chksumComp chksumBinStr)
      then Ret (Some ErrChecksum)
      else Ret None
  end.

Definition IsValid (mnemonic : Mnemonic) : exec bool :=
  err <- Validate mnemonic ;;
  Ret (match err with None => true | Some _ => false end).

Definition GenerateSeed (mnemonic : Mnemonic) (passphrase : gostring)
  : exec (option (list byte) * option error) :=
  err <- Validate mnemonic ;;
  match err with
  | Some e => Ret (None, Some e)
  | None =>
      let salt := seedSaltMod ++ passphrase in
      Ret (Some (pbkdf2_Key (bytes_of_gostring (Words mnemonic))
                   (bytes_of_gostring salt) seedPbkdf2Round seedPbkdf2KeyLen
                   sha512_New), None)
  end.

End Bip39.

(* ================================================================= *)
(** ** Bit-level reading of the codec

    The statements below speak of bits, not of digit characters: a bit
    string is a [list bool], most significant bit first. *)

Definition char_of_bit (b : bool) : ascii := if b then "1" else "0".

Definition bit_of_char (c : ascii) : bool := (c =? "1")%char.

(** The string holds only the digits 0 and 1. *)
Definition is_bin (s : gostring) : bool :=
  forallb (fun c => (c =? "0")%char || (c =? "1")%char) s.

(** The unsigned integer a bit string denotes, big-endian. *)
Definition be_value (bits : list bool) : Z :=
  fold_left (fun a b => 2 * a + Z.b2z b) bits 0.

(** The [k] low bits of [n], most significant first. *)
Fixpoint bits_be (k : nat) (n : Z) : list bool :=
  match k with
  | O => []
  | S k' => bits_be k' (n / 2) ++ [Z.odd n]
  end.

Definition bits_of_byte (b : byte) : list bool :=
  bits_be 8 (Z.of_N (Byte.to_N b)).

Definition bits_of_bytes (bs : list byte) : list bool :=
  flat_map bits_of_byte bs.

(** [n] bytes out of a bit string, eight bits each. *)
Fixpoint bytes_of_bits (n : nat) (bits : list bool) : list byte :=
  match n with
  | O => []
  | S n' => byte_of_Z (be_value (firstn 8 bits)) :: bytes_of_bits n' (skipn 8 bits)
  end.

(** The [i]-th group of [w] bits of a bit string. *)
Definition group (w : nat) (i : nat) (bits : list bool) : list bool :=
  firstn w (skipn (w * i) bits).

(** The bits a mnemonic encodes: the entropy followed by the leading
    [bits/32] bits of its SHA-256 hash. *)
Definition mnemonic_bits (sum256 : list byte -> list byte) (e : list byte)
  : list bool :=
  bits_of_bytes e ++ firstn (8 * length e / 32) (bits_of_bytes (sum256 e)).

(** The word of the [k]-th group of eleven bits: the table entry at the
    index the group denotes. *)
Definition word_of_group (table : list gostring) (bits : list bool) (k : nat)
  : gostring :=
  nth (Z.to_nat (be_value (group 11 k bits))) table [].

(** The number of words of an entropy of [n] bytes:
    [(bits + bits/32) / 11] with [bits = 8 * n]. *)
Definition words_count (n : nat) : nat := ((8 * n + 8 * n / 32) / 11)%nat.

(** The bits a sequence of word indices spells, eleven per index. *)
Definition index_bits (idxs : list nat) : list bool :=
  flat_map (fun i => bits_be 11 (Z.of_nat i)) idxs.

Definition bits_eqb (a b : list bool) : bool :=
  if list_eq_dec bool_dec a b then true else false.

(** Every word of [ws] stands in the table, at the positions [idxs]. *)
Definition at_positions (table : list gostring) (ws : list gostring)
    (idxs : list nat) : Prop :=
  Forall2 (fun w i => nth_error table i = Some w) ws idxs.

(** Of the [11 * n] bits of [n] words, the leading [11n - 11n/33] are the
    entropy and the rest is the stored checksum. *)
Definition entropy_bit_len (n : nat) : nat := (11 * n - 11 * n / 33)%nat.

Definition decoded_entropy (idxs : list nat) : list byte :=
  bytes_of_bits (entropy_bit_len (length idxs) / 8)
    (firstn (entropy_bit_len (length idxs)) (index_bits idxs)).

Definition stored_checksum (idxs : list nat) : list bool :=
  skipn (entropy_bit_len (length idxs)) (index_bits idxs).

(** The checksum of an entropy: the leading [bits/32] bits of its hash. *)
Definition computed_checksum (sum256 : list byte -> list byte) (e : list byte)
  : list bool :=
  firstn (8 * length e / 32) (bits_of_bytes (sum256 e)).

(** The index the [k]-th group of eleven bits denotes. *)
Definition group_index (bits : list bool) (k : nat) : nat :=
  Z.to_nat (be_value (group 11 k bits)).

(** The word table is strictly increasing for the byte order of strings. *)
Fixpoint strictly_sorted (l : list gostring) : bool :=
  match l with
  | [] => true
  | a :: rest =>
      match rest with
      | [] => true
      | b :: _ => gostring_ltb a b && strictly_sorted rest
      end
  end.

Definition has_space (w : gostring) : bool :=
  existsb (fun c => (c =? " ")%char) w.

Definition no_spaces (l : list gostring) : bool :=
  forallb (fun w => negb (has_space w)) l.

Definition is_empty (w : gostring) : bool :=
  match w with [] => true | _ => false end.

Definition no_empty_word (l : list gostring) : bool :=
  forallb (fun w => negb (is_empty w)) l.

Definition valid_bits (bits : Z) : Prop :=
  bits = 128 \/ bits = 160 \/ bits = 192 \/ bits = 224 \/ bits = 256.

Definition valid_words_num (n : Z) : Prop :=
  n = 12 \/ n = 15 \/ n = 18 \/ n = 21 \/ n = 24.

(** The four entry points of the decode path all report the error [err],
    with no entropy and no seed. *)
Definition decode_fails {Hash : Type} (table : list gostring)
    (sum256 : list byte -> list byte) (new512 : Hash)
    (key : list byte -> list byte -> Z -> Z -> Hash -> list byte)
    (m : Mnemonic) (err : error) : Prop :=
  ToEntropy table sum256 m = Ret (None, Some err) /\
  Validate table sum256 m = Ret (Some err) /\
  IsValid table sum256 m = Ret false /\
  forall p, GenerateSeed table sum256 Hash new512 key m p = Ret (None, Some err).

(** The four entry points all accept the mnemonic, [ToEntropy] giving the
    entropy [ent] and [GenerateSeed] the derived key. *)
Definition decode_succeeds {Hash : Type} (table : list gostring)
    (sum256 : list byte -> list byte) (new512 : Hash)
    (key : list byte -> list byte -> Z -> Z -> Hash -> list byte)
    (m : Mnemonic) (ent : list byte) : Prop :=
  ToEntropy table sum256 m = Ret (Some ent, None) /\
  Validate table sum256 m = Ret None /\
  IsValid table sum256 m = Ret true /\
  forall p, GenerateSeed table sum256 Hash new512 key m p
            = Ret (Some (key (bytes_of_gostring (Words m))
                             (bytes_of_gostring (lit "mnemonic" ++ p))
                             2048 64 new512), None).

(* ================================================================= *)
(** ** Small instances of the collaborators, to run the code on

    A table of 2048 distinct sorted words (eleven letters a/b each, the
    index written in binary), a 32-byte stand-in for the hash, a stand-in
    for the key derivation, and two random sources: one that fills the
    buffer, one that fails leaving it untouched. *)

Module Demo.

Definition word_of (i : nat) : gostring :=
  map (fun c => if (c =? "0")%char then "a" else "b")
      (Sprintf_prec_b 11 (Z.of_nat i)).

Definition words : list gostring := map word_of (seq 0 2048).

Definition sum256 (m : list byte) : list byte :=
  byte_of_Z (fold_left (fun a b => a + Z.of_N (Byte.to_N b)) m 90)
    :: repeat x00 31.

Definition key (password salt : list byte) (iter keyLen : Z) (h : unit)
  : list byte :=
  firstn (Z.to_nat keyLen) (password ++ salt ++ repeat x00 (Z.to_nat keyLen)).

Definition read_ok (r : unit) (buf : list byte) : unit * list byte * option error :=
  (r, map (fun _ => x2a) buf, None).

Definition read_fail (r : unit) (buf : list byte) : unit * list byte * option error :=
  (r, buf, Some (RandError (lit "entropy source unavailable"))).

(** Sixteen zero bytes; their stand-in hash starts with the byte 0x5a, so
    the checksum is 0101 and the twelfth word has index 5. *)
Definition entropy : list byte := repeat x00 16.

Definition phrase (ws : list gostring) : Mnemonic :=
  {| Words := strings_Join ws (lit " ") |}.

Definition good : Mnemonic := phrase (repeat (word_of 0) 11 ++ [word_of 5]).

Definition tampered : Mnemonic := phrase (repeat (word_of 0) 11 ++ [word_of 6]).

Definition eleven : Mnemonic := phrase (repeat (word_of 0) 11).

Definition eleven_unknown : Mnemonic :=
  phrase (repeat (word_of 0) 10 ++ [lit "notexistent"]).

Definition unknown : Mnemonic :=
  phrase (repeat (word_of 0) 3 ++ [lit "notexistent"] ++ repeat (word_of 0) 7
          ++ [word_of 5]).

(** Twelve tokens, the sixth of them empty (two spaces in a row). *)
Definition double_space : Mnemonic :=
  phrase (repeat (word_of 0) 5 ++ [[]] ++ repeat (word_of 0) 5 ++ [word_of 5]).

End Demo.

(* ================================================================= *)
(** ** Bit strings and binary numerals *)

Lemma len_app {A : Type} (l1 l2 : list A) : len (l1 ++ l2) = len l1 + len l2.
Proof. unfold len. rewrite length_app. lia. Qed.

Lemma len_nonneg {A : Type} (l : list A) : 0 <= len l.
Proof. unfold len. lia. Qed.

Lemma len_cons {A : Type} (a : A) (l : list A) : len (a :: l) = len l + 1.
Proof. unfold len. cbn [length]. lia. Qed.

Lemma len_map {A B : Type} (f : A -> B) (l : list A) : len (map f l) = len l.
Proof. unfold len. now rewrite length_map. Qed.

Lemma be_value_app (bits : list bool) (b : bool) :
  be_value (bits ++ [b]) = 2 * be_value bits + Z.b2z b.
Proof. unfold be_value. now rewrite fold_left_app. Qed.

Lemma be_value_acc (bits : list bool) (a : Z) :
  fold_left (fun a b => 2 * a + Z.b2z b) bits a = a * 2 ^ len bits + be_value bits.
Proof.
  unfold be_value. revert a.
  induction bits as [|b bits IH]; intros a.
  - cbn. lia.
  - cbn [fold_left]. rewrite IH, (IH (2 * 0 + Z.b2z b)), len_cons.
    rewrite Z.pow_add_r by (try apply len_nonneg; lia).
    change (2 ^ 1) with 2. ring.
Qed.

Lemma be_value_cons (b : bool) (bits : list bool) :
  be_value (b :: bits) = Z.b2z b * 2 ^ len bits + be_value bits.
Proof.
  unfold be_value at 1. cbn [fold_left]. rewrite be_value_acc. f_equal.
Qed.

Lemma be_value_bound (bits : list bool) : 0 <= be_value bits < 2 ^ len bits.
Proof.
  induction bits as [|b bits IH] using rev_ind.
  - cbn. lia.
  - rewrite be_value_app, len_app. change (len [b]) with 1.
    rewrite Z.pow_add_r by (try apply len_nonneg; lia).
    destruct b; cbn [Z.b2z]; lia.
Qed.

Lemma bits_be_length (k : nat) (n : Z) : length (bits_be k n) = k.
Proof.
  revert n. induction k as [|k IH]; intros n; cbn [bits_be].
  - reflexivity.
  - rewrite length_app, IH. cbn. lia.
Qed.

Lemma be_value_bits_be (k : nat) (n : Z) :
  0 <= n < 2 ^ Z.of_nat k -> be_value (bits_be k n) = n.
Proof.
  revert n. induction k as [|k IH]; intros n Hn.
  - cbn in *. lia.
  - cbn [bits_be]. rewrite be_value_app.
    rewrite Nat2Z.inj_succ, Z.pow_succ_r in Hn by lia.
    rewrite IH.
    + rewrite <- Z.div2_div. symmetry. apply Z.div2_odd.
    + split; [apply Z.div_pos; lia | apply Z.div_lt_upper_bound; lia].
Qed.

Lemma bits_be_be_value (bits : list bool) :
  bits_be (length bits) (be_value bits) = bits.
Proof.
  induction bits as [|b bits IH] using rev_ind.
  - reflexivity.
  - rewrite length_app, Nat.add_1_r. cbn [bits_be].
    rewrite be_value_app.
    replace ((2 * be_value bits + Z.b2z b) / 2) with (be_value bits)
      by (destruct b; cbn [Z.b2z];
          [apply Z.div_unique with 1 | apply Z.div_unique with 0]; lia).
    rewrite IH. f_equal. f_equal.
    rewrite Z.add_comm, Z.odd_add_mul_2. now destruct b.
Qed.

Lemma bits_be_zero (k : nat) : bits_be k 0 = repeat false k.
Proof.
  induction k as [|k IH]; [reflexivity|].
  cbn [bits_be]. change (0 / 2) with 0. rewrite IH.
  change [Z.odd 0] with (repeat false 1).
  rewrite <- repeat_app. f_equal. lia.
Qed.

Lemma bit_of_char_of_bit (bits : list bool) :
  map bit_of_char (map char_of_bit bits) = bits.
Proof.
  rewrite map_map. rewrite <- (map_id bits) at 2.
  apply map_ext. now intros [].
Qed.

Lemma is_bin_char_of_bit (bits : list bool) : is_bin (map char_of_bit bits) = true.
Proof. induction bits as [|[] bits IH]; cbn; auto. Qed.

Lemma char_of_bit_of_char (s : gostring) :
  is_bin s = true -> map char_of_bit (map bit_of_char s) = s.
Proof.
  induction s as [|c s IH]; cbn; intros H; [reflexivity|].
  apply andb_true_iff in H as [Hc Hs]. rewrite IH by exact Hs. f_equal.
  apply orb_true_iff in Hc as [Hc|Hc]; apply Ascii.eqb_eq in Hc; now subst.
Qed.

Lemma is_bin_app (s t : gostring) : is_bin (s ++ t) = is_bin s && is_bin t.
Proof. apply forallb_app. Qed.

Lemma is_bin_firstn (n : nat) (s : gostring) :
  is_bin s = true -> is_bin (firstn n s) = true.
Proof.
  intros H. rewrite <- (firstn_skipn n s), is_bin_app in H.
  now apply andb_true_iff in H.
Qed.

Lemma is_bin_skipn (n : nat) (s : gostring) :
  is_bin s = true -> is_bin (skipn n s) = true.
Proof.
  intros H. rewrite <- (firstn_skipn n s), is_bin_app in H.
  now apply andb_true_iff in H.
Qed.

(** *** What [%.Nb] prints for a value that fits *)

Lemma bin_digits_pos_pad (p : positive) (k : nat) :
  Z.pos p < 2 ^ Z.of_nat k ->
  repeat "0"%char (k - length (bin_digits_pos p)) ++ bin_digits_pos p
  = map char_of_bit (bits_be k (Z.pos p)).
Proof.
  revert k. induction p as [q IH|q IH|]; intros k Hk.
  - destruct k as [|k]; [cbn in Hk; lia|].
    rewrite Nat2Z.inj_succ, Z.pow_succ_r in Hk by lia.
    cbn [bin_digits_pos bits_be]. rewrite length_app. cbn [length].
    replace (S k - (length (bin_digits_pos q) + 1))%nat
      with (k - length (bin_digits_pos q))%nat by lia.
    rewrite app_assoc, IH by lia.
    replace (Z.pos q~1 / 2) with (Z.pos q)
      by (apply Z.div_unique with 1; lia).
    now rewrite map_app.
  - destruct k as [|k]; [cbn in Hk; lia|].
    rewrite Nat2Z.inj_succ, Z.pow_succ_r in Hk by lia.
    cbn [bin_digits_pos bits_be]. rewrite length_app. cbn [length].
    replace (S k - (length (bin_digits_pos q) + 1))%nat
      with (k - length (bin_digits_pos q))%nat by lia.
    rewrite app_assoc, IH by lia.
    replace (Z.pos q~0 / 2) with (Z.pos q)
      by (apply Z.div_unique with 0; lia).
    now rewrite map_app.
  - destruct k as [|k]; [cbn in Hk; lia|].
    cbn [bin_digits_pos bits_be length]. change (1 / 2) with 0.
    rewrite bits_be_zero, map_app.
    replace (S k - 1)%nat with k by lia.
    f_equal. clear. induction k; cbn; congruence.
Qed.

Lemma Sprintf_prec_b_bits (k : nat) (n : Z) :
  0 <= n < 2 ^ Z.of_nat k ->
  Sprintf_prec_b k n = map char_of_bit (bits_be k n).
Proof.
  intros Hn. unfold Sprintf_prec_b.
  destruct n as [|p|p]; [| |lia].
  - destruct k as [|k]; [reflexivity|].
    cbn [Nat.eqb andb Z.abs_N bin_digits length Z.ltb Z.compare].
    cbn [bits_be]. change (0 / 2) with 0. rewrite bits_be_zero, map_app.
    replace (S k - 1)%nat with k by lia.
    f_equal. clear. induction k; cbn; congruence.
  - replace (Nat.eqb k 0 && (Z.pos p =? 0)) with false
      by (now rewrite andb_false_r).
    cbn [Z.abs_N bin_digits Z.ltb Z.compare].
    now apply bin_digits_pos_pad.
Qed.

Lemma bytesToBinaryString_bits (bs : list byte) :
  bytesToBinaryString bs = map char_of_bit (bits_of_bytes bs).
Proof.
  induction bs as [|b bs IH]; [reflexivity|].
  cbn [bytesToBinaryString bits_of_bytes flat_map].
  rewrite map_app, IH. f_equal.
  apply Sprintf_prec_b_bits.
  pose proof (Byte.to_N_bounded b). change (2 ^ Z.of_nat 8) with 256. lia.
Qed.

Lemma bits_of_bytes_length (bs : list byte) :
  length (bits_of_bytes bs) = (8 * length bs)%nat.
Proof.
  induction bs as [|b bs IH]; [reflexivity|].
  cbn [bits_of_bytes flat_map]. rewrite length_app.
  unfold bits_of_byte at 1. rewrite bits_be_length.
  fold (bits_of_bytes bs). rewrite IH. cbn [length]. lia.
Qed.

(* ================================================================= *)
(** ** strconv on short numerals in base 2 *)

Lemma digit_val_not_bin (c : ascii) :
  (c =? "0")%char || (c =? "1")%char = false ->
  match digit_val c with
  | Some d => d >=? 2
  | None => true
  end = true.
Proof.
  destruct c as [[] [] [] [] [] [] [] []]; vm_compute; congruence.
Qed.

Lemma ParseUint_loop_short (s : gostring) (n : Z) :
  0 <= n -> (n + 1) * 2 ^ len s <= 65536 ->
  ParseUint_loop s 2 (maxUint64 / 2 + 1) (2 ^ 16 - 1) n
  = if is_bin s then (n * 2 ^ len s + be_value (map bit_of_char s), None)
    else (0, Some ErrSyntax).
Proof.
  revert n. induction s as [|c s IH]; intros n Hn Hb.
  - cbn. f_equal. lia.
  - rewrite len_cons, Z.pow_add_r in Hb by (try apply len_nonneg; lia).
    change (2 ^ 1) with 2 in Hb.
    pose proof (Z.pow_pos_nonneg 2 (len s) ltac:(lia) (len_nonneg s)) as Hp.
    cbn [ParseUint_loop is_bin forallb map]. fold (is_bin s).
    destruct ((c =? "0")%char || (c =? "1")%char) eqn:Hc.
    + assert (Hd : exists b, c = char_of_bit b).
      { apply orb_true_iff in Hc as [Hc|Hc]; apply Ascii.eqb_eq in Hc;
          [exists false | exists true]; exact Hc. }
      destruct Hd as [b ->]. clear Hc.
      replace (digit_val (char_of_bit b)) with (Some (Z.b2z b))
        by (now destruct b).
      assert (Hb01 : 0 <= Z.b2z b <= 1) by (destruct b; cbn; lia).
      replace (Z.b2z b >=? 2) with false by (symmetry; rewrite Z.geb_leb; apply Z.leb_gt; lia).
      change (maxUint64 / 2 + 1) with 9223372036854775808.
      change (2 ^ 16 - 1) with 65535. change (2 ^ 64) with 18446744073709551616.
      replace (n >=? 9223372036854775808) with false
        by (symmetry; rewrite Z.geb_leb; apply Z.leb_gt; nia).
      rewrite (Z.mod_small (n * 2)) by nia.
      rewrite (Z.mod_small (n * 2 + Z.b2z b)) by nia.
      replace (n * 2 + Z.b2z b <? n * 2) with false
        by (symmetry; apply Z.ltb_ge; lia).
      replace (n * 2 + Z.b2z b >? 65535) with false
        by (symmetry; rewrite Z.gtb_ltb; apply Z.ltb_ge; nia).
      cbn [orb andb].
      change 9223372036854775808 with (maxUint64 / 2 + 1).
      change 65535 with (2 ^ 16 - 1).
      rewrite IH by nia.
      destruct (is_bin s); [|reflexivity].
      f_equal.
      replace (bit_of_char (char_of_bit b)) with b by (now destruct b).
      rewrite be_value_cons, len_cons, len_map.
      rewrite Z.pow_add_r by (try apply len_nonneg; lia).
      change (2 ^ 1) with 2. ring.
    + cbn [andb]. pose proof (digit_val_not_bin c Hc) as Hd.
      destruct (digit_val c) as [d|]; [|reflexivity].
      now rewrite Hd.
Qed.

(** The sign [ParseInt] picks off, and what is left to [ParseUint]. *)
Definition sign_split (s : gostring) : bool * gostring :=
  match s with
  | [] => (false, [])
  | c0 :: rest =>
      if (c0 =? "+")%char then (false, rest)
      else if (c0 =? "-")%char then (true, rest)
      else (false, s)
  end.

Lemma ParseUint_short (s : gostring) :
  len s <= 15 ->
  ParseUint s 2 16
  = if is_bin s && negb (is_empty s)
    then (be_value (map bit_of_char s), None)
    else (0, Some (NumError (lit "ParseUint") s ErrSyntax)).
Proof.
  intros Hl. destruct s as [|c s]; [reflexivity|].
  unfold ParseUint.
  pose proof (Z.pow_le_mono_r 2 (len (c :: s)) 15 ltac:(lia) Hl) as Hp.
  change (2 ^ 15) with 32768 in Hp.
  rewrite ParseUint_loop_short by lia.
  destruct (is_bin (c :: s)); [|reflexivity].
  now rewrite Z.mul_0_l, Z.add_0_l.
Qed.

(** What [ParseInt] does once the sign is picked off. *)
Lemma ParseInt_after_sign (s0 body : gostring) (neg : bool) :
  len body <= 15 ->
  (let '(un, err) := ParseUint body 2 16 in
   match err with
   | Some (NumError _ _ ErrSyntax) =>
       (0, Some (NumError (lit "ParseInt") s0 ErrSyntax))
   | Some (NumError _ _ ErrRange) | None =>
       let cutoff := 2 ^ (16 - 1) in
       if negb neg && (un >=? cutoff)
       then (cutoff - 1, Some (NumError (lit "ParseInt") s0 ErrRange))
       else if neg && (un >? cutoff)
       then (- cutoff, Some (NumError (lit "ParseInt") s0 ErrRange))
       else (if neg then - un else un, None)
   | Some e => (0, Some e)
   end)
  = if is_bin body && negb (is_empty body)
    then (if neg then - be_value (map bit_of_char body)
          else be_value (map bit_of_char body), None)
    else (0, Some (NumError (lit "ParseInt") s0 ErrSyntax)).
Proof.
  intros Hl. rewrite ParseUint_short by exact Hl.
  destruct (is_bin body && negb (is_empty body)); [|reflexivity].
  pose proof (be_value_bound (map bit_of_char body)) as Hv.
  rewrite len_map in Hv.
  pose proof (Z.pow_le_mono_r 2 (len body) 15 ltac:(lia) Hl) as Hp.
  change (2 ^ 15) with 32768 in Hp.
  cbv zeta. change (2 ^ (16 - 1)) with 32768.
  replace (be_value (map bit_of_char body) >=? 32768) with false
    by (symmetry; rewrite Z.geb_leb; apply Z.leb_gt; lia).
  replace (be_value (map bit_of_char body) >? 32768) with false
    by (symmetry; rewrite Z.gtb_ltb; apply Z.ltb_ge; lia).
  now rewrite !andb_false_r.
Qed.

Lemma ParseInt_short (s : gostring) :
  len s <= 15 ->
  ParseInt s 2 16
  = let '(neg, body) := sign_split s in
    if is_bin body && negb (is_empty body)
    then (if neg then - be_value (map bit_of_char body)
          else be_value (map bit_of_char body), None)
    else (0, Some (NumError (lit "ParseInt") s ErrSyntax)).
Proof.
  intros Hl. destruct s as [|c0 rest]; [reflexivity|].
  unfold ParseInt, sign_split.
  rewrite len_cons in Hl. pose proof (len_nonneg rest).
  destruct (c0 =? "+")%char.
  { apply ParseInt_after_sign. lia. }
  destruct (c0 =? "-")%char.
  { apply ParseInt_after_sign. lia. }
  apply ParseInt_after_sign. rewrite len_cons. lia.
Qed.

(** A numeral of binary digits parses to its value. *)
Lemma ParseInt_bits (bits : list bool) :
  (0 < length bits <= 15)%nat ->
  ParseInt (map char_of_bit bits) 2 16 = (be_value bits, None).
Proof.
  intros Hl. rewrite ParseInt_short by (rewrite len_map; unfold len; lia).
  destruct bits as [|b bits]; [cbn in Hl; lia|].
  assert (Hs : sign_split (map char_of_bit (b :: bits))
               = (false, map char_of_bit (b :: bits))) by (now destruct b).
  rewrite Hs, is_bin_char_of_bit, bit_of_char_of_bit. reflexivity.
Qed.

Definition is_sign_or_bin (c : ascii) : bool :=
  (c =? "0")%char || (c =? "1")%char || (c =? "+")%char || (c =? "-")%char.

(** A numeral holding a character that is neither a binary digit nor a
    sign is a syntax error. *)
Lemma ParseInt_bad_char (s : gostring) :
  len s <= 15 ->
  forallb is_sign_or_bin s = false ->
  ParseInt s 2 16 = (0, Some (NumError (lit "ParseInt") s ErrSyntax)).
Proof.
  intros Hl Hbad. rewrite ParseInt_short by exact Hl.
  assert (Hweak : forall t, is_bin t = true -> forallb is_sign_or_bin t = true).
  { induction t as [|c t IH]; cbn; [reflexivity|]. intros H.
    apply andb_true_iff in H as [Hc Ht]. rewrite (IH Ht).
    unfold is_sign_or_bin. rewrite Hc. reflexivity. }
  destruct s as [|c0 rest]; [reflexivity|].
  unfold sign_split.
  destruct (c0 =? "+")%char eqn:Hplus.
  { destruct (is_bin rest) eqn:Hb; [|reflexivity].
    cbn [forallb] in Hbad. rewrite (Hweak _ Hb) in Hbad.
    unfold is_sign_or_bin in Hbad. rewrite Hplus in Hbad.
    rewrite andb_true_r, orb_true_r in Hbad. discriminate. }
  destruct (c0 =? "-")%char eqn:Hminus.
  { destruct (is_bin rest) eqn:Hb; [|reflexivity].
    cbn [forallb] in Hbad. rewrite (Hweak _ Hb) in Hbad.
    unfold is_sign_or_bin in Hbad. rewrite Hminus in Hbad.
    rewrite andb_true_r, orb_true_r in Hbad. discriminate. }
  destruct (is_bin (c0 :: rest)) eqn:Hb; [|reflexivity].
  rewrite (Hweak _ Hb) in Hbad. discriminate.
Qed.

(** On a short numeral the only error is the syntax error. *)
Lemma ParseInt_short_cases (s : gostring) :
  len s <= 15 ->
  (exists v, ParseInt s 2 16 = (v, None)) \/
  ParseInt s 2 16 = (0, Some (NumError (lit "ParseInt") s ErrSyntax)).
Proof.
  intros Hl. rewrite ParseInt_short by exact Hl.
  destruct (sign_split s) as [neg body].
  destruct (is_bin body && negb (is_empty body)); [left; eauto | right; reflexivity].
Qed.

(* ================================================================= *)
(** ** Slices *)

Lemma slice_middle {A : Type} (pre rest : list A) (k : Z) :
  0 <= k <= len rest ->
  slice (pre ++ rest) (len pre) (len pre + k) = Ret (firstn (Z.to_nat k) rest).
Proof.
  intros Hk. unfold slice. rewrite len_app.
  pose proof (len_nonneg pre).
  replace ((0 <=? len pre) && (len pre <=? len pre + k)
           && (len pre + k <=? len pre + len rest)) with true
    by (symmetry; rewrite !andb_true_iff, !Z.leb_le; lia).
  f_equal. replace (len pre + k - len pre) with k by lia.
  unfold len. rewrite Nat2Z.id, skipn_app, skipn_all, Nat.sub_diag.
  reflexivity.
Qed.

Lemma slice_prefix {A : Type} (s : list A) (k : Z) :
  0 <= k <= len s -> slice s 0 k = Ret (firstn (Z.to_nat k) s).
Proof. intros Hk. apply (slice_middle [] s k Hk). Qed.

Lemma slice_suffix {A : Type} (s : list A) (k : Z) :
  0 <= k <= len s -> slice s k (len s) = Ret (skipn (Z.to_nat k) s).
Proof.
  intros Hk. unfold slice.
  replace ((0 <=? k) && (k <=? len s) && (len s <=? len s)) with true
    by (symmetry; rewrite !andb_true_iff, !Z.leb_le; lia).
  f_equal. apply firstn_all2. rewrite length_skipn. unfold len in *. lia.
Qed.

Lemma index_nth_error {A : Type} (s : list A) (i : nat) (a : A) :
  nth_error s i = Some a -> index s (Z.of_nat i) = Ret a.
Proof.
  intros H. unfold index.
  assert (i < length s)%nat by (apply nth_error_Some; congruence).
  replace ((0 <=? Z.of_nat i) && (Z.of_nat i <? len s)) with true
    by (symmetry; rewrite andb_true_iff, Z.leb_le, Z.ltb_lt; unfold len; lia).
  now rewrite Nat2Z.id, H.
Qed.

Lemma index_Ret {A : Type} (s : list A) (i : Z) (a : A) :
  index s i = Ret a -> 0 <= i < len s /\ nth_error s (Z.to_nat i) = Some a.
Proof.
  unfold index. destruct ((0 <=? i) && (i <? len s)) eqn:Hb; [|discriminate].
  apply andb_true_iff in Hb as [H1 H2]. apply Z.leb_le in H1. apply Z.ltb_lt in H2.
  destruct (nth_error s (Z.to_nat i)); [|discriminate].
  intros [= ->]. auto.
Qed.

(* ================================================================= *)
(** ** The bit-string codec *)

Lemma byte_of_Z_to_N (b : byte) : byte_of_Z (Z.of_N (Byte.to_N b)) = b.
Proof.
  unfold byte_of_Z. pose proof (Byte.to_N_bounded b).
  rewrite Z.mod_small by lia. now rewrite N2Z.id, Byte.of_to_N.
Qed.

Lemma to_N_byte_of_Z (v : Z) :
  0 <= v < 256 -> Z.of_N (Byte.to_N (byte_of_Z v)) = v.
Proof.
  intros Hv. unfold byte_of_Z. rewrite Z.mod_small by lia.
  destruct (Byte.of_N (Z.to_N v)) as [b|] eqn:Hb.
  - apply Byte.to_of_N in Hb. rewrite Hb. lia.
  - apply Byte.of_N_None_iff in Hb. lia.
Qed.

Lemma bytes_of_bits_of_bytes (bs : list byte) :
  bytes_of_bits (length bs) (bits_of_bytes bs) = bs.
Proof.
  induction bs as [|b bs IH]; [reflexivity|].
  cbn [length bytes_of_bits bits_of_bytes flat_map]. fold (bits_of_bytes bs).
  assert (Hl : length (bits_of_byte b) = 8%nat) by apply bits_be_length.
  rewrite firstn_app, skipn_app, Hl, Nat.sub_diag.
  rewrite firstn_all2, skipn_all2 by lia. cbn [firstn skipn].
  rewrite app_nil_r, app_nil_l, IH. f_equal.
  unfold bits_of_byte. rewrite be_value_bits_be.
  - apply byte_of_Z_to_N.
  - pose proof (Byte.to_N_bounded b). change (2 ^ Z.of_nat 8) with 256. lia.
Qed.

Lemma bits_of_bytes_of_bits (n : nat) (bits : list bool) :
  length bits = (8 * n)%nat ->
  bits_of_bytes (bytes_of_bits n bits) = bits.
Proof.
  revert bits. induction n as [|n IH]; intros bits Hl.
  - destruct bits; [reflexivity | discriminate].
  - cbn [bytes_of_bits bits_of_bytes flat_map]. fold (bits_of_bytes (bytes_of_bits n (skipn 8 bits))).
    rewrite IH by (rewrite length_skipn; lia).
    rewrite <- (firstn_skipn 8 bits) at 3. f_equal.
    assert (Hf : length (firstn 8 bits) = 8%nat) by (rewrite length_firstn; lia).
    unfold bits_of_byte. rewrite to_N_byte_of_Z.
    + rewrite <- Hf at 1. apply bits_be_be_value.
    + pose proof (be_value_bound (firstn 8 bits)) as Hb. unfold len in Hb.
      rewrite Hf in Hb. change (2 ^ Z.of_nat 8) with 256 in Hb. exact Hb.
Qed.

Lemma bytes_of_bits_length (n : nat) (bits : list bool) :
  length (bytes_of_bits n bits) = n.
Proof.
  revert bits. induction n as [|n IH]; intros bits; cbn; [reflexivity|].
  now rewrite IH.
Qed.

(** The loop on what is left of a string of binary digits. *)
Lemma binaryStringToBytes_loop_bin (m : nat) :
  forall (fuel : nat) (pre rest : gostring) (acc : list byte),
    length rest = (8 * m)%nat -> (m < fuel)%nat -> is_bin rest = true ->
    binaryStringToBytes_loop fuel (pre ++ rest) (len pre) acc
    = Ret (Some (acc ++ bytes_of_bits m (map bit_of_char rest)), None).
Proof.
  induction m as [|m IH]; intros fuel pre rest acc Hl Hf Hb.
  - destruct rest; [|discriminate]. destruct fuel as [|fuel]; [lia|].
    cbn [binaryStringToBytes_loop bytes_of_bits]. rewrite !app_nil_r, Z.ltb_irrefl.
    reflexivity.
  - destruct fuel as [|fuel]; [lia|]. cbn [binaryStringToBytes_loop].
    replace (len pre <? len (pre ++ rest)) with true
      by (symmetry; apply Z.ltb_lt; rewrite len_app; unfold len; lia).
    rewrite slice_middle by (unfold len; lia). cbn [bind].
    change (Z.to_nat 8) with 8%nat.
    rewrite <- (char_of_bit_of_char (firstn 8 rest)) by (now apply is_bin_firstn).
    rewrite ParseInt_bits by (rewrite length_map, length_firstn; lia).
    assert (Hpre : len pre + 8 = len (pre ++ firstn 8 rest)).
    { rewrite len_app. unfold len. rewrite length_firstn. lia. }
    rewrite Hpre. rewrite <- (firstn_skipn 8 rest) at 1. rewrite app_assoc.
    rewrite IH; [| rewrite length_skipn; lia | lia | now apply is_bin_skipn].
    cbn [bytes_of_bits]. rewrite <- app_assoc. cbn [app].
    now rewrite firstn_map, skipn_map.
Qed.

(** The loop in general: it ends, without a panic, either on a slice or on
    the syntax error of one group; and it cannot end on a slice when some
    character is neither a binary digit nor a sign. *)
Lemma binaryStringToBytes_loop_cases (m : nat) :
  forall (fuel : nat) (pre rest : gostring) (acc : list byte),
    length rest = (8 * m)%nat -> (m < fuel)%nat ->
    (exists bs, binaryStringToBytes_loop fuel (pre ++ rest) (len pre) acc
                = Ret (Some bs, None)
                /\ forallb is_sign_or_bin rest = true) \/
    (exists num, binaryStringToBytes_loop fuel (pre ++ rest) (len pre) acc
                 = Ret (None, Some (NumError (lit "ParseInt") num ErrSyntax))).
Proof.
  induction m as [|m IH]; intros fuel pre rest acc Hl Hf.
  - destruct rest; [|discriminate]. destruct fuel as [|fuel]; [lia|].
    left. exists acc. cbn [binaryStringToBytes_loop].
    rewrite !app_nil_r, Z.ltb_irrefl. auto.
  - destruct fuel as [|fuel]; [lia|]. cbn [binaryStringToBytes_loop].
    replace (len pre <? len (pre ++ rest)) with true
      by (symmetry; apply Z.ltb_lt; rewrite len_app; unfold len; lia).
    rewrite slice_middle by (unfold len; lia). cbn [bind].
    change (Z.to_nat 8) with 8%nat.
    assert (Hf8 : length (firstn 8 rest) = 8%nat) by (rewrite length_firstn; lia).
    assert (Hlen : len (firstn 8 rest) <= 15) by (unfold len; lia).
    destruct (ParseInt_short_cases (firstn 8 rest) Hlen) as [[v Hv]|He].
    + rewrite Hv.
      assert (Hpre : len pre + 8 = len (pre ++ firstn 8 rest)).
      { rewrite len_app. unfold len. rewrite Hf8. lia. }
      assert (Hsplit : pre ++ rest = (pre ++ firstn 8 rest) ++ skipn 8 rest)
        by (now rewrite <- app_assoc, firstn_skipn).
      rewrite Hpre, Hsplit.
      destruct (IH fuel (pre ++ firstn 8 rest) (skipn 8 rest)
                  (acc ++ [byte_of_Z v])) as [[bs [Hbs Hall]]|[num Hnum]];
        [rewrite length_skipn; lia | lia | |].
      * left. exists bs. split; [exact Hbs|].
        rewrite <- (firstn_skipn 8 rest), forallb_app, Hall, andb_true_r.
        destruct (forallb is_sign_or_bin (firstn 8 rest)) eqn:Hc; [reflexivity|].
        rewrite (ParseInt_bad_char _ Hlen Hc) in Hv. discriminate.
      * right. exists num. exact Hnum.
    + rewrite He. right. eauto.
Qed.

Lemma binaryStringToBytes_bin (s : gostring) (m : nat) :
  length s = (8 * m)%nat -> is_bin s = true ->
  binaryStringToBytes s = Ret (Some (bytes_of_bits m (map bit_of_char s)), None).
Proof.
  intros Hl Hb. unfold binaryStringToBytes.
  replace (Z.rem (len s) 8) with 0
    by (unfold len; rewrite Hl, Nat2Z.inj_mul, Z.mul_comm; symmetry;
        apply Z.rem_mul; lia).
  cbn [Z.eqb negb].
  apply (binaryStringToBytes_loop_bin m (S (length s)) [] s []); [exact Hl | lia | exact Hb].
Qed.

Lemma rem8_length (s : gostring) :
  Z.rem (len s) 8 = 0 -> exists m, length s = (8 * m)%nat.
Proof.
  intros H. exists (length s / 8)%nat.
  rewrite Z.rem_mod_nonneg in H by (try apply len_nonneg; lia).
  unfold len in H.
  pose proof (Nat.div_mod_eq (length s) 8).
  assert ((length s mod 8)%nat = 0%nat); [|lia].
  apply Nat2Z.inj. rewrite Nat2Z.inj_mod. exact H.
Qed.

Lemma binaryStringToBytes_cases (s : gostring) :
  Z.rem (len s) 8 = 0 ->
  (exists bs, binaryStringToBytes s = Ret (Some bs, None)
              /\ forallb is_sign_or_bin s = true) \/
  (exists num, binaryStringToBytes s
               = Ret (None, Some (NumError (lit "ParseInt") num ErrSyntax))).
Proof.
  intros H. destruct (rem8_length s H) as [m Hm].
  unfold binaryStringToBytes. rewrite H. cbn [Z.eqb negb].
  apply (binaryStringToBytes_loop_cases m (S (length s)) [] s []); [exact Hm | lia].
Qed.

(* ================================================================= *)
(** ** The order on strings and the binary search *)

Lemma N_of_ascii_inj (x y : ascii) : N_of_ascii x = N_of_ascii y -> x = y.
Proof.
  intros H. rewrite <- (ascii_N_embedding x), <- (ascii_N_embedding y).
  now rewrite H.
Qed.

Lemma gostring_compare_refl (a : gostring) : gostring_compare a a = Eq.
Proof.
  induction a as [|x a IH]; cbn; [reflexivity|].
  now rewrite N.compare_refl.
Qed.

Lemma gostring_compare_eq (a b : gostring) : gostring_compare a b = Eq -> a = b.
Proof.
  revert b. induction a as [|x a IH]; intros [|y b]; cbn; try discriminate; auto.
  destruct (N.compare_spec (N_of_ascii x) (N_of_ascii y)) as [E|L|G];
    try discriminate.
  intros H. apply N_of_ascii_inj in E. subst. f_equal. auto.
Qed.

Lemma gostring_compare_antisym (a b : gostring) :
  gostring_compare b a = CompOpp (gostring_compare a b).
Proof.
  revert b. induction a as [|x a IH]; intros [|y b]; cbn; try reflexivity.
  rewrite (N.compare_antisym (N_of_ascii x) (N_of_ascii y)).
  destruct (N.compare (N_of_ascii x) (N_of_ascii y)); cbn; auto.
Qed.

Lemma gostring_compare_lt_trans (a b c : gostring) :
  gostring_compare a b = Lt -> gostring_compare b c = Lt ->
  gostring_compare a c = Lt.
Proof.
  revert b c. induction a as [|x a IH]; intros [|y b] [|z c]; cbn;
    try discriminate; auto.
  destruct (N.compare_spec (N_of_ascii x) (N_of_ascii y)) as [E|L|G];
    try discriminate;
    destruct (N.compare_spec (N_of_ascii y) (N_of_ascii z)) as [E'|L'|G'];
    try discriminate; intros H1 H2.
  - rewrite E, E', N.compare_refl. eauto.
  - rewrite E. now apply N.compare_lt_iff in L' as ->.
  - rewrite <- E'. now apply N.compare_lt_iff in L as ->.
  - assert (Hxz : (N_of_ascii x < N_of_ascii z)%N) by lia.
    now apply N.compare_lt_iff in Hxz as ->.
Qed.

Lemma strictly_sorted_cons (a : gostring) (l : list gostring) :
  strictly_sorted (a :: l) = true ->
  Forall (fun b => gostring_compare a b = Lt) l /\ strictly_sorted l = true.
Proof.
  revert a. induction l as [|b l IH]; intros a H.
  - split; [constructor | reflexivity].
  - cbn [strictly_sorted] in H. apply andb_true_iff in H as [Hab Hs].
    unfold gostring_ltb in Hab.
    destruct (gostring_compare a b) eqn:Hc; try discriminate.
    split; [|exact Hs]. constructor; [exact Hc|].
    destruct (IH b Hs) as [Hall _].
    eapply Forall_impl; [|exact Hall].
    intros c Hbc. cbn beta in Hbc. eapply gostring_compare_lt_trans; eauto.
Qed.

Lemma strictly_sorted_nth (l : list gostring) :
  strictly_sorted l = true ->
  forall (i j : nat) (a b : gostring),
    nth_error l i = Some a -> nth_error l j = Some b -> (i < j)%nat ->
    gostring_compare a b = Lt.
Proof.
  induction l as [|x l IH]; intros Hs i j a b Hi Hj Hij.
  - destruct i; discriminate.
  - destruct (strictly_sorted_cons x l Hs) as [Hall Hs'].
    destruct j as [|j]; [lia|]. cbn in Hj.
    destruct i as [|i].
    + cbn in Hi. injection Hi as ->.
      rewrite Forall_forall in Hall. apply Hall.
      eapply nth_error_In; eauto.
    + cbn in Hi. eapply IH; eauto. lia.
Qed.

Lemma gostring_eqb_eq (a b : gostring) : gostring_eqb a b = true <-> a = b.
Proof.
  unfold gostring_eqb. destruct (list_eq_dec ascii_dec a b); split; auto.
  discriminate.
Qed.

Lemma gostring_eqb_refl (a : gostring) : gostring_eqb a a = true.
Proof. now apply gostring_eqb_eq. Qed.

Lemma shiftr_half (i j : Z) : i < j -> i <= Z.shiftr (i + j) 1 < j.
Proof.
  intros H. rewrite Z.shiftr_div_pow2 by lia. change (2 ^ 1) with 2.
  split; [apply Z.div_le_lower_bound | apply Z.div_lt_upper_bound]; lia.
Qed.

(** The search ends within its fuel on a predicate defined on the range,
    and its result stays in the range. *)
Lemma Search_loop_total (f : Z -> exec bool) :
  forall (fuel : nat) (i j : Z),
    i <= j -> (Z.to_nat (j - i) < fuel)%nat ->
    (forall h, i <= h < j -> exists b, f h = Ret b) ->
    exists r, Search_loop fuel f i j = Ret r /\ i <= r <= j.
Proof.
  induction fuel as [|fuel IH]; intros i j Hij Hf Hdef; [lia|].
  cbn [Search_loop]. destruct (i <? j) eqn:Hlt.
  - apply Z.ltb_lt in Hlt. pose proof (shiftr_half i j Hlt) as Hh.
    destruct (Hdef _ Hh) as [b ->]. cbn [bind].
    destruct b; cbn [negb].
    + destruct (IH i (Z.shiftr (i + j) 1)) as [r [Hr Hb]];
        [lia | lia | intros; apply Hdef; lia |].
      exists r. split; [exact Hr | lia].
    + destruct (IH (Z.shiftr (i + j) 1 + 1) j) as [r [Hr Hb]];
        [lia | lia | intros; apply Hdef; lia |].
      exists r. split; [exact Hr | lia].
  - exists i. split; [reflexivity | lia].
Qed.

(** On a predicate that turns true exactly from [t] on, the search
    returns [t]. *)
Lemma Search_loop_threshold (f : Z -> exec bool) (t : Z) :
  forall (fuel : nat) (i j : Z),
    i <= t <= j -> (Z.to_nat (j - i) < fuel)%nat ->
    (forall h, i <= h < j -> f h = Ret (t <=? h)) ->
    Search_loop fuel f i j = Ret t.
Proof.
  induction fuel as [|fuel IH]; intros i j Hij Hf Hdef; [lia|].
  cbn [Search_loop]. destruct (i <? j) eqn:Hlt.
  - apply Z.ltb_lt in Hlt. pose proof (shiftr_half i j Hlt) as Hh.
    rewrite (Hdef _ Hh). cbn [bind].
    destruct (t <=? Z.shiftr (i + j) 1) eqn:Ht; cbn [negb].
    + apply Z.leb_le in Ht. apply IH; [lia | lia | intros; apply Hdef; lia].
    + apply Z.leb_gt in Ht. apply IH; [lia | lia | intros; apply Hdef; lia].
  - apply Z.ltb_ge in Hlt. f_equal. lia.
Qed.

Lemma index_defined {A : Type} (a : list A) (h : Z) :
  0 <= h < len a -> exists w, index a h = Ret w /\ nth_error a (Z.to_nat h) = Some w.
Proof.
  intros Hh. unfold index.
  replace ((0 <=? h) && (h <? len a)) with true
    by (symmetry; rewrite andb_true_iff, Z.leb_le, Z.ltb_lt; lia).
  destruct (nth_error a (Z.to_nat h)) as [w|] eqn:Hn; [eauto|].
  apply nth_error_None in Hn. unfold len in Hh. lia.
Qed.

(** [stringBinarySearch] always returns, and when its result is not -1 it
    is a position of the word. *)
Lemma stringBinarySearch_total (a : list gostring) (x : gostring) :
  exists r, stringBinarySearch a x = Ret r /\
            (r = -1 \/ (0 <= r < len a /\ nth_error a (Z.to_nat r) = Some x)).
Proof.
  unfold stringBinarySearch, sort_SearchStrings, sort_Search.
  destruct (Search_loop_total
              (fun i => ai <- index a i ;; Ret (gostring_geb ai x))
              (S (Z.to_nat (len a))) 0 (len a)) as [r [Hr Hb]].
  - apply len_nonneg.
  - lia.
  - intros h Hh. destruct (index_defined a h Hh) as [w [-> _]]. cbn. eauto.
  - rewrite Hr. cbn [bind]. destruct (r =? len a) eqn:He; cbn [negb].
    + exists (-1). auto.
    + apply Z.eqb_neq in He.
      destruct (index_defined a r ltac:(lia)) as [w [-> Hw]]. cbn [bind].
      destruct (gostring_eqb w x) eqn:Hwx.
      * apply gostring_eqb_eq in Hwx. subst w. exists r. split; [reflexivity|].
        right. split; [lia | exact Hw].
      * exists (-1). auto.
Qed.

Lemma stringBinarySearch_not_in (a : list gostring) (x : gostring) :
  ~ In x a -> stringBinarySearch a x = Ret (-1).
Proof.
  intros Hn. destruct (stringBinarySearch_total a x) as [r [Hr [->|[_ Hx]]]];
    [exact Hr|].
  exfalso. apply Hn. eapply nth_error_In; eauto.
Qed.

(** In a strictly increasing table the search finds every entry at its
    own position. *)
Lemma stringBinarySearch_found (a : list gostring) (i : nat) (x : gostring) :
  strictly_sorted a = true -> nth_error a i = Some x ->
  stringBinarySearch a x = Ret (Z.of_nat i).
Proof.
  intros Hs Hi.
  assert (Hlt : (i < length a)%nat) by (apply nth_error_Some; congruence).
  unfold stringBinarySearch, sort_SearchStrings, sort_Search.
  rewrite (Search_loop_threshold _ (Z.of_nat i)).
  - cbn [bind].
    replace (Z.of_nat i =? len a) with false
      by (symmetry; apply Z.eqb_neq; unfold len; lia).
    cbn [negb]. rewrite (index_nth_error a i x Hi). cbn [bind].
    now rewrite gostring_eqb_refl.
  - unfold len. lia.
  - lia.
  - intros h Hh. destruct (index_defined a h Hh) as [w [-> Hw]]. cbn [bind].
    f_equal. unfold gostring_geb.
    destruct (Z.of_nat i <=? h) eqn:Hle.
    + apply Z.leb_le in Hle.
      destruct (Z.eq_dec (Z.of_nat i) h) as [E|N].
      * subst h. rewrite Nat2Z.id in Hw. assert (w = x) by congruence. subst w.
        now rewrite gostring_compare_refl.
      * rewrite gostring_compare_antisym.
        rewrite (strictly_sorted_nth a Hs i (Z.to_nat h) x w Hi Hw) by lia.
        reflexivity.
    + apply Z.leb_gt in Hle.
      now rewrite (strictly_sorted_nth a Hs (Z.to_nat h) i w x Hw Hi) by lia.
Qed.

(* ================================================================= *)
(** ** Splitting and joining on the space *)

Lemma strings_Split_nonempty (s : gostring) (sep : ascii) :
  strings_Split s sep <> [].
Proof.
  induction s as [|c s IH]; cbn; [discriminate|].
  destruct (c =? sep)%char; [discriminate|].
  destruct (strings_Split s sep); [contradiction | discriminate].
Qed.

Lemma strings_Split_app_word (w s : gostring) :
  has_space w = false ->
  strings_Split (w ++ " " :: s) " " = w :: strings_Split s " ".
Proof.
  induction w as [|c w IH]; intros Hw.
  - reflexivity.
  - cbn in Hw. apply orb_false_iff in Hw as [Hc Hw].
    cbn [app strings_Split]. rewrite Hc, (IH Hw). reflexivity.
Qed.

Lemma strings_Split_word (w : gostring) :
  has_space w = false -> strings_Split w " " = [w].
Proof.
  induction w as [|c w IH]; intros Hw.
  - reflexivity.
  - cbn in Hw. apply orb_false_iff in Hw as [Hc Hw].
    cbn [strings_Split]. rewrite Hc, (IH Hw). reflexivity.
Qed.

Lemma strings_Split_Join (ws : list gostring) :
  ws <> [] -> no_spaces ws = true ->
  strings_Split (strings_Join ws (lit " ")) " " = ws.
Proof.
  induction ws as [|w ws IH]; intros Hne Hns; [contradiction|].
  cbn in Hns. apply andb_true_iff in Hns as [Hw Hns].
  apply negb_true_iff in Hw.
  destruct ws as [|w' ws].
  - cbn [strings_Join]. now apply strings_Split_word.
  - change (strings_Join (w :: w' :: ws) (lit " "))
      with (w ++ " " :: strings_Join (w' :: ws) (lit " ")).
    rewrite strings_Split_app_word by exact Hw.
    f_equal. apply IH; [discriminate | exact Hns].
Qed.

Lemma strings_Split_app_sep (a b : gostring) :
  strings_Split (a ++ " " :: b) " " = strings_Split a " " ++ strings_Split b " ".
Proof.
  induction a as [|c a IH]; [reflexivity|].
  cbn [app strings_Split]. rewrite IH.
  destruct (c =? " ")%char; [reflexivity|].
  destruct (strings_Split a " ") as [|w ws] eqn:E;
    [now apply strings_Split_nonempty in E | reflexivity].
Qed.

(** An empty token comes from a leading space, a trailing space or two
    spaces in a row. *)
Lemma strings_Split_leading_space (s : gostring) :
  In [] (strings_Split (" " :: s) " ").
Proof. cbn. auto. Qed.

Lemma strings_Split_trailing_space (s : gostring) :
  In [] (strings_Split (s ++ [" "%char]) " ").
Proof. rewrite strings_Split_app_sep. apply in_or_app. right. cbn. auto. Qed.

Lemma strings_Split_double_space (a b : gostring) :
  In [] (strings_Split (a ++ " " :: " " :: b) " ").
Proof. rewrite strings_Split_app_sep. apply in_or_app. right. cbn. auto. Qed.

(* ================================================================= *)
(** ** Arithmetic of the five sizes *)

Lemma map_get_entropyBitLenMap (k : Z) :
  map_get entropyBitLenMap k = true <-> valid_bits k.
Proof.
  unfold entropyBitLenMap, valid_bits, map_get, EntropyBits128, EntropyBits160,
    EntropyBits192, EntropyBits224, EntropyBits256.
  repeat match goal with
         | |- context [?a =? ?b] => destruct (Z.eqb_spec a b)
         end; split; intros H; try reflexivity; try discriminate; lia.
Qed.

Lemma map_get_wordsNumMap (k : Z) :
  map_get wordsNumMap k = true <-> valid_words_num k.
Proof.
  unfold wordsNumMap, valid_words_num, map_get, WordsNum12, WordsNum15,
    WordsNum18, WordsNum21, WordsNum24.
  repeat match goal with
         | |- context [?a =? ?b] => destruct (Z.eqb_spec a b)
         end; split; intros H; try reflexivity; try discriminate; lia.
Qed.

Lemma validateEntropyBitLen_None (k : Z) :
  validateEntropyBitLen k = None <-> valid_bits k.
Proof.
  unfold validateEntropyBitLen. rewrite <- map_get_entropyBitLenMap.
  destruct (map_get entropyBitLenMap k); cbn; split; congruence.
Qed.

Lemma validateEntropyBitLen_Some (k : Z) :
  ~ valid_bits k -> validateEntropyBitLen k = Some ErrEntropyBitLen.
Proof.
  intros H. unfold validateEntropyBitLen.
  destruct (map_get entropyBitLenMap k) eqn:E; [|reflexivity].
  now apply map_get_entropyBitLenMap in E.
Qed.

Lemma validateWordsNum_None (k : Z) :
  validateWordsNum k = None <-> valid_words_num k.
Proof.
  unfold validateWordsNum. rewrite <- map_get_wordsNumMap.
  destruct (map_get wordsNumMap k); cbn; split; congruence.
Qed.

Lemma validateWordsNum_Some (k : Z) :
  ~ valid_words_num k -> validateWordsNum k = Some ErrWordsNum.
Proof.
  intros H. unfold validateWordsNum.
  destruct (map_get wordsNumMap k) eqn:E; [|reflexivity].
  now apply map_get_wordsNumMap in E.
Qed.

Lemma valid_bits_length (e : list byte) :
  valid_bits (8 * len e) ->
  length e = 16%nat \/ length e = 20%nat \/ length e = 24%nat \/
  length e = 28%nat \/ length e = 32%nat.
Proof. unfold valid_bits, len. lia. Qed.

Lemma valid_words_num_length {A : Type} (ws : list A) :
  valid_words_num (len ws) ->
  length ws = 12%nat \/ length ws = 15%nat \/ length ws = 18%nat \/
  length ws = 21%nat \/ length ws = 24%nat.
Proof. unfold valid_words_num, len. lia. Qed.

Lemma slice_in_range {A : Type} (s : list A) (lo hi : nat) :
  (lo <= hi <= length s)%nat ->
  slice s (Z.of_nat lo) (Z.of_nat hi) = Ret (firstn (hi - lo) (skipn lo s)).
Proof.
  intros H. unfold slice.
  replace ((0 <=? Z.of_nat lo) && (Z.of_nat lo <=? Z.of_nat hi)
           && (Z.of_nat hi <=? len s)) with true
    by (symmetry; rewrite !andb_true_iff, !Z.leb_le; unfold len; lia).
  f_equal. rewrite Nat2Z.id. f_equal. lia.
Qed.

Lemma group_length (w k : nat) (bits : list bool) :
  (w * (k + 1) <= length bits)%nat -> length (group w k bits) = w.
Proof.
  intros H. unfold group. rewrite length_firstn, length_skipn. lia.
Qed.

Lemma concat_groups (w n : nat) (bits : list bool) :
  (w * n <= length bits)%nat ->
  concat (map (fun k => group w k bits) (seq 0 n)) = firstn (w * n) bits.
Proof.
  induction n as [|n IH]; intros H.
  - now rewrite Nat.mul_0_r.
  - rewrite seq_S, map_app, concat_app, IH by lia. cbn [map concat Nat.add].
    rewrite app_nil_r. unfold group.
    replace (w * S n)%nat with (w * n + w)%nat by lia.
    rewrite <- (firstn_skipn (w * n) (firstn (w * n + w) bits)).
    rewrite firstn_firstn, Nat.min_l by lia. f_equal.
    rewrite skipn_firstn_comm. f_equal. lia.
Qed.

(* ================================================================= *)
(** ** The mnemonic codec over a word table *)

Section Codec.

Variable wordsListEn : list gostring.
Variable sha256_Sum256 : list byte -> list byte.

(** The table has 2048 entries and [Sum256] returns an array of 32 bytes. *)
Hypothesis wordsListEn_length : length wordsListEn = 2048%nat.
Hypothesis Sum256_length : forall m, length (sha256_Sum256 m) = 32%nat.

Lemma entropyChecksumBinStr_bits (e : list byte) :
  (length e <= 1024)%nat ->
  entropyChecksumBinStr sha256_Sum256 e
  = Ret (map char_of_bit (firstn (length e / 4) (bits_of_bytes (sha256_Sum256 e)))).
Proof.
  intros He. unfold entropyChecksumBinStr.
  rewrite bytesToBinaryString_bits.
  assert (Hq : Z.quot (len e) 4 = Z.of_nat (length e / 4)).
  { rewrite Z.quot_div_nonneg by (try apply len_nonneg; lia).
    unfold len. now rewrite Nat2Z.inj_div. }
  rewrite Hq, slice_prefix.
  - now rewrite Nat2Z.id, firstn_map.
  - rewrite len_map. unfold len.
    rewrite bits_of_bytes_length, Sum256_length.
    pose proof (Nat.Div0.div_le_upper_bound (length e) 4 256). lia.
Qed.

Lemma word_index_bound (bits : list bool) (k : nat) :
  (11 * (k + 1) <= length bits)%nat ->
  0 <= be_value (group 11 k bits) < 2048.
Proof.
  intros H. pose proof (be_value_bound (group 11 k bits)) as Hb.
  unfold len in Hb. rewrite group_length in Hb by exact H. exact Hb.
Qed.

(** The encoding loop: group by group, the word at the index the group
    denotes. *)
Lemma MnemonicFromEntropy_loop_words (bits : list bool) :
  forall (n i : nat) (acc : list gostring),
    (11 * (i + n) <= length bits)%nat ->
    MnemonicFromEntropy_loop wordsListEn n (Z.of_nat i) (map char_of_bit bits) acc
    = Ret (acc ++ map (word_of_group wordsListEn bits) (seq i n)).
Proof.
  induction n as [|n IH]; intros i acc H.
  - cbn. now rewrite app_nil_r.
  - cbn [MnemonicFromEntropy_loop seq map]. unfold wordBitLen.
    replace (Z.of_nat i * 11) with (Z.of_nat (11 * i)) by lia.
    replace ((Z.of_nat i + 1) * 11) with (Z.of_nat (11 * i + 11)) by lia.
    rewrite slice_in_range by (rewrite length_map; lia). cbn [bind].
    replace (11 * i + 11 - 11 * i)%nat with 11%nat by lia.
    rewrite skipn_map, firstn_map. fold (group 11 i bits).
    rewrite ParseInt_bits by (rewrite group_length; lia).
    pose proof (word_index_bound bits i ltac:(lia)) as Hb.
    destruct (index_defined wordsListEn (be_value (group 11 i bits))) as [w [Hw Hn]].
    { unfold len. rewrite wordsListEn_length. lia. }
    rewrite Hw. cbn [bind].
    replace (Z.of_nat i + 1) with (Z.of_nat (S i)) by lia.
    rewrite IH by lia. rewrite <- app_assoc. cbn [app].
    do 3 f_equal. unfold word_of_group. symmetry.
    now apply nth_error_nth.
Qed.

Lemma mnemonic_bits_length (e : list byte) :
  valid_bits (8 * len e) ->
  length (mnemonic_bits sha256_Sum256 e) = (11 * words_count (length e))%nat.
Proof.
  intros Hv. unfold mnemonic_bits, words_count.
  rewrite length_app, length_firstn, !bits_of_bytes_length, Sum256_length.
  destruct (valid_bits_length e Hv) as [H|[H|[H|[H|H]]]]; rewrite H; reflexivity.
Qed.

(** [MnemonicFromEntropy] on a valid entropy. *)
Lemma MnemonicFromEntropy_valid (e : list byte) :
  valid_bits (8 * len e) ->
  MnemonicFromEntropy wordsListEn sha256_Sum256 e
  = Ret (Some {| Words := strings_Join
                            (map (word_of_group wordsListEn
                                    (mnemonic_bits sha256_Sum256 e))
                                 (seq 0 (words_count (length e))))
                            (lit " ") |}, None).
Proof.
  intros Hv. unfold MnemonicFromEntropy.
  replace (len e * 8) with (8 * len e) by lia.
  rewrite (proj2 (validateEntropyBitLen_None _) Hv).
  pose proof (valid_bits_length e Hv) as Hl.
  rewrite entropyChecksumBinStr_bits by lia. cbn [bind].
  rewrite bytesToBinaryString_bits, <- map_app.
  replace (length e / 4)%nat with (8 * length e / 32)%nat
    by (destruct Hl as [H|[H|[H|[H|H]]]]; rewrite H; reflexivity).
  fold (mnemonic_bits sha256_Sum256 e).
  pose proof (mnemonic_bits_length e Hv) as Hlen.
  replace (Z.to_nat (Z.quot (len (map char_of_bit (mnemonic_bits sha256_Sum256 e)))
                       wordBitLen))
    with (words_count (length e)).
  - rewrite (MnemonicFromEntropy_loop_words _ _ 0%nat []) by lia.
    reflexivity.
  - rewrite len_map. unfold len, wordBitLen. rewrite Hlen.
    rewrite Z.quot_div_nonneg by lia.
    rewrite Nat2Z.inj_mul, Z.mul_comm, Z.div_mul by lia.
    now rewrite Nat2Z.id.
Qed.

(** The decoding loop always returns: either the invalid-word error, or
    the buffer extended by the eleven digits of a position of each word. *)
Lemma getBinaryStrings_loop_cases (ws : list gostring) :
  forall buf : gostring,
    exists r, getBinaryStrings_loop wordsListEn ws buf = Ret r /\
      (r = ([], Some ErrInvalidWord) \/
       exists idxs,
         r = (buf ++ concat (map (fun i => Sprintf_prec_b 11 (Z.of_nat i)) idxs), None)
         /\ at_positions wordsListEn ws idxs).
Proof using.
  clear wordsListEn_length Sum256_length.
  induction ws as [|w ws IH]; intros buf.
  - exists (buf, None). split; [reflexivity|]. right. exists [].
    cbn. rewrite app_nil_r. split; [reflexivity | constructor].
  - cbn [getBinaryStrings_loop].
    destruct (stringBinarySearch_total wordsListEn w) as [r0 [-> Hr0]].
    cbn [bind]. destruct Hr0 as [->|[Hrange Hnth]].
    + cbn. eauto.
    + replace (r0 =? -1) with false by (symmetry; apply Z.eqb_neq; lia).
      destruct (IH (buf ++ Sprintf_prec_b 11 r0)) as [r [Hr [->|[idxs [-> Hall]]]]].
      * exists ([], Some ErrInvalidWord). auto.
      * eexists. split; [exact Hr|]. right. exists (Z.to_nat r0 :: idxs).
        split; [|constructor; assumption].
        cbn [map concat]. rewrite Z2Nat.id by lia. now rewrite <- app_assoc.
Qed.

Lemma at_positions_In (ws : list gostring) (idxs : list nat) :
  at_positions wordsListEn ws idxs -> Forall (fun w => In w wordsListEn) ws.
Proof.
  induction 1 as [|w i ws idxs Hw _ IH]; constructor; [|exact IH].
  eapply nth_error_In; eauto.
Qed.

Lemma In_at_positions (ws : list gostring) :
  Forall (fun w => In w wordsListEn) ws ->
  exists idxs, at_positions wordsListEn ws idxs.
Proof.
  induction 1 as [|w ws Hw _ [idxs IH]]; [exists []; constructor|].
  destruct (In_nth_error _ _ Hw) as [i Hi].
  exists (i :: idxs). now constructor.
Qed.

(** A word outside the table stops the loop with the invalid-word error,
    wherever it stands. *)
Lemma getBinaryStrings_loop_invalid (ws : list gostring) (buf : gostring) :
  ~ Forall (fun w => In w wordsListEn) ws ->
  getBinaryStrings_loop wordsListEn ws buf = Ret ([], Some ErrInvalidWord).
Proof using.
  intros Hn.
  destruct (getBinaryStrings_loop_cases ws buf) as [r [Hr [->|[idxs [_ Hall]]]]];
    [exact Hr|].
  exfalso. apply Hn. eapply at_positions_In; eauto.
Qed.

(** In a sorted table each word is found at its position. *)
Lemma getBinaryStrings_loop_found (ws : list gostring) (idxs : list nat) :
  strictly_sorted wordsListEn = true ->
  at_positions wordsListEn ws idxs ->
  forall buf : gostring,
    getBinaryStrings_loop wordsListEn ws buf
    = Ret (buf ++ concat (map (fun i => Sprintf_prec_b 11 (Z.of_nat i)) idxs), None).
Proof.
  intros Hs. induction 1 as [|w i ws idxs Hw _ IH]; intros buf.
  - cbn. now rewrite app_nil_r.
  - cbn [getBinaryStrings_loop].
    rewrite (stringBinarySearch_found wordsListEn i w Hs Hw). cbn [bind].
    replace (Z.of_nat i =? -1) with false by (symmetry; apply Z.eqb_neq; lia).
    rewrite IH. cbn [map concat]. now rewrite <- app_assoc.
Qed.

Lemma at_positions_length (ws : list gostring) (idxs : list nat) :
  at_positions wordsListEn ws idxs -> length idxs = length ws.
Proof. induction 1; cbn; congruence. Qed.

(** The digits written for positions in the table are the bits of the
    indices. *)
Lemma index_digits (ws : list gostring) (idxs : list nat) :
  at_positions wordsListEn ws idxs ->
  concat (map (fun i => Sprintf_prec_b 11 (Z.of_nat i)) idxs)
  = map char_of_bit (index_bits idxs).
Proof.
  induction 1 as [|w i ws idxs Hw _ IH]; [reflexivity|].
  cbn [map concat index_bits flat_map]. fold (index_bits idxs).
  rewrite map_app, IH. f_equal.
  apply Sprintf_prec_b_bits.
  assert (i < length wordsListEn)%nat by (apply nth_error_Some; congruence).
  change (2 ^ Z.of_nat 11) with 2048. lia.
Qed.

Lemma index_bits_length (idxs : list nat) :
  length (index_bits idxs) = (11 * length idxs)%nat.
Proof.
  induction idxs as [|i idxs IH]; [reflexivity|].
  cbn [index_bits flat_map length]. fold (index_bits idxs).
  rewrite length_app, bits_be_length, IH. lia.
Qed.

Lemma Validate_ToEntropy (m : Mnemonic) :
  Validate wordsListEn sha256_Sum256 m
  = (r <- ToEntropy wordsListEn sha256_Sum256 m ;; Ret (snd r)).
Proof.
  unfold Validate, ToEntropy.
  destruct (getBinaryStrings wordsListEn m) as [[[e c] [err|]]| |]; try reflexivity.
  cbn [bind].
  destruct (binaryStringToBytes e) as [[ent ?]| |]; try reflexivity.
  cbn [bind].
  destruct (entropyChecksumBinStr sha256_Sum256 (elems ent)) as [chk| |];
    try reflexivity.
  cbn [bind]. now destruct (gostring_eqb chk c).
Qed.

Lemma valid_words_num_cases (n : nat) :
  valid_words_num (Z.of_nat n) ->
  n = 12%nat \/ n = 15%nat \/ n = 18%nat \/ n = 21%nat \/ n = 24%nat.
Proof. unfold valid_words_num. lia. Qed.

(** Where [getBinaryStrings] cuts the digits of [n] words. *)
Lemma getBinaryStrings_cut (n : nat) (cb : list bool) :
  valid_words_num (Z.of_nat n) -> length cb = (11 * n)%nat ->
  (let s := map char_of_bit cb in
   let chksumLen := Z.quot (len s) 33 in
   let chksumIdx := len s - chksumLen in
   e <- slice s 0 chksumIdx ;;
   c <- slice s chksumIdx (len s) ;;
   Ret (e, c, @None error))
  = Ret (map char_of_bit (firstn (entropy_bit_len n) cb),
         map char_of_bit (skipn (entropy_bit_len n) cb), None).
Proof.
  intros Hv Hl. cbv zeta. rewrite len_map. unfold len. rewrite Hl.
  assert (Hk : Z.of_nat (11 * n) - Z.quot (Z.of_nat (11 * n)) 33
               = Z.of_nat (entropy_bit_len n)).
  { unfold entropy_bit_len.
    destruct (valid_words_num_cases n Hv) as [H|[H|[H|[H|H]]]]; subst n; reflexivity. }
  rewrite Hk.
  assert (Hle : (entropy_bit_len n <= 11 * n)%nat) by (unfold entropy_bit_len; lia).
  rewrite slice_prefix by (rewrite len_map; unfold len; lia). cbn [bind].
  replace (Z.of_nat (11 * n)) with (len (map char_of_bit cb))
    by (rewrite len_map; unfold len; now rewrite Hl).
  rewrite slice_suffix by (rewrite len_map; unfold len; lia). cbn [bind].
  now rewrite Nat2Z.id, firstn_map, skipn_map.
Qed.

(** [getBinaryStrings] on a mnemonic with a valid number of words: it
    returns, with the invalid-word error or with the two parts of the
    digits of positions of the words. *)
Lemma getBinaryStrings_cases (m : Mnemonic) :
  valid_words_num (len (strings_Split (Words m) " ")) ->
  getBinaryStrings wordsListEn m = Ret ([], [], Some ErrInvalidWord) \/
  exists idxs,
    at_positions wordsListEn (strings_Split (Words m) " ") idxs /\
    getBinaryStrings wordsListEn m
    = Ret (map char_of_bit (firstn (entropy_bit_len (length idxs)) (index_bits idxs)),
           map char_of_bit (stored_checksum idxs), None).
Proof.
  intros Hv. unfold getBinaryStrings.
  rewrite (proj2 (validateWordsNum_None _) Hv).
  destruct (getBinaryStrings_loop_cases (strings_Split (Words m) " ") [])
    as [r [Hr [->|[idxs [-> Hall]]]]]; rewrite Hr; cbn [bind].
  - now left.
  - right. exists idxs. split; [exact Hall|].
    rewrite app_nil_l, (index_digits _ _ Hall).
    pose proof (at_positions_length _ _ Hall) as Hlen.
    apply getBinaryStrings_cut.
    + unfold len in Hv. now rewrite Hlen.
    + apply index_bits_length.
Qed.

(** After a successful [getBinaryStrings] the entropy digits convert to
    bytes without error, and the checksum of the bytes is computed without
    a panic. *)
Lemma decoded_entropy_bytes (idxs : list nat) :
  valid_words_num (Z.of_nat (length idxs)) ->
  binaryStringToBytes
    (map char_of_bit (firstn (entropy_bit_len (length idxs)) (index_bits idxs)))
  = Ret (Some (decoded_entropy idxs), None).
Proof.
  intros Hv. unfold decoded_entropy.
  rewrite (binaryStringToBytes_bin _ (entropy_bit_len (length idxs) / 8)).
  - now rewrite bit_of_char_of_bit.
  - rewrite length_map, length_firstn, index_bits_length.
    destruct (valid_words_num_cases _ Hv) as [H|[H|[H|[H|H]]]]; rewrite H; reflexivity.
  - apply is_bin_char_of_bit.
Qed.

Lemma decoded_entropy_length (idxs : list nat) :
  length (decoded_entropy idxs) = (entropy_bit_len (length idxs) / 8)%nat.
Proof. apply bytes_of_bits_length. Qed.

Lemma decoded_entropy_checksum (idxs : list nat) :
  valid_words_num (Z.of_nat (length idxs)) ->
  entropyChecksumBinStr sha256_Sum256 (decoded_entropy idxs)
  = Ret (map char_of_bit (computed_checksum sha256_Sum256 (decoded_entropy idxs))).
Proof.
  intros Hv. unfold computed_checksum.
  pose proof (decoded_entropy_length idxs) as Hl.
  rewrite entropyChecksumBinStr_bits.
  - do 3 f_equal. rewrite Hl.
    destruct (valid_words_num_cases _ Hv) as [H|[H|[H|[H|H]]]]; rewrite H; reflexivity.
  - rewrite Hl.
    destruct (valid_words_num_cases _ Hv) as [H|[H|[H|[H|H]]]]; rewrite H;
      cbv; lia.
Qed.

Lemma gostring_eqb_bits (a b : list bool) :
  gostring_eqb (map char_of_bit a) (map char_of_bit b) = bits_eqb a b.
Proof.
  unfold gostring_eqb, bits_eqb.
  destruct (list_eq_dec ascii_dec (map char_of_bit a) (map char_of_bit b)) as [E|N];
    destruct (list_eq_dec bool_dec a b) as [E'|N']; try reflexivity.
  - exfalso. apply N'.
    rewrite <- (bit_of_char_of_bit a), <- (bit_of_char_of_bit b). now rewrite E.
  - exfalso. apply N. now rewrite E'.
Qed.

(** [ToEntropy] once the words are known to stand at [idxs]. *)
Lemma ToEntropy_at_positions (m : Mnemonic) (idxs : list nat) :
  valid_words_num (Z.of_nat (length idxs)) ->
  getBinaryStrings wordsListEn m
  = Ret (map char_of_bit (firstn (entropy_bit_len (length idxs)) (index_bits idxs)),
         map char_of_bit (stored_checksum idxs), None) ->
  ToEntropy wordsListEn sha256_Sum256 m
  = Ret (if bits_eqb (computed_checksum sha256_Sum256 (decoded_entropy idxs))
                     (stored_checksum idxs)
         then (Some (decoded_entropy idxs), None)
         else (None, Some ErrChecksum)).
Proof.
  intros Hv Hg. unfold ToEntropy. rewrite Hg. cbn [bind].
  rewrite (decoded_entropy_bytes idxs Hv). cbn [bind elems].
  rewrite (decoded_entropy_checksum idxs Hv). cbn [bind].
  rewrite gostring_eqb_bits.
  now destruct (bits_eqb _ _).
Qed.

(** *** Decoding what was encoded *)

Lemma encoded_positions (bits : list bool) (ks : list nat) :
  Forall (fun k => 11 * (k + 1) <= length bits)%nat ks ->
  at_positions wordsListEn (map (word_of_group wordsListEn bits) ks)
    (map (group_index bits) ks).
Proof.
  induction 1 as [|k ks Hk _ IH]; [constructor|].
  cbn [map]. constructor; [|exact IH].
  unfold word_of_group, group_index. apply nth_error_nth'.
  pose proof (word_index_bound bits k Hk). lia.
Qed.

Lemma encoded_index_bits (bits : list bool) (ks : list nat) :
  Forall (fun k => 11 * (k + 1) <= length bits)%nat ks ->
  index_bits (map (group_index bits) ks)
  = concat (map (fun k => group 11 k bits) ks).
Proof.
  induction 1 as [|k ks Hk _ IH]; [reflexivity|].
  cbn [map index_bits flat_map concat]. fold (index_bits (map (group_index bits) ks)).
  rewrite IH. f_equal. unfold group_index.
  pose proof (word_index_bound bits k Hk).
  rewrite Z2Nat.id by lia.
  rewrite <- (group_length 11 k bits Hk) at 1. apply bits_be_be_value.
Qed.

Lemma seq_groups_in_range (bits : list bool) (n : nat) :
  (11 * n <= length bits)%nat ->
  Forall (fun k => 11 * (k + 1) <= length bits)%nat (seq 0 n).
Proof.
  intros H. apply Forall_forall. intros k Hk. apply in_seq in Hk. lia.
Qed.

Lemma encoded_no_spaces (bits : list bool) (ks : list nat) :
  no_spaces wordsListEn = true ->
  no_spaces (map (word_of_group wordsListEn bits) ks) = true.
Proof.
  intros Hns. unfold no_spaces. apply forallb_forall. intros w Hw.
  apply in_map_iff in Hw as [k [<- _]]. unfold word_of_group.
  destruct (nth_in_or_default (Z.to_nat (be_value (group 11 k bits))) wordsListEn [])
    as [Hin| ->]; [|reflexivity].
  unfold no_spaces in Hns. rewrite forallb_forall in Hns. now apply Hns.
Qed.

Lemma getBinaryStrings_found (m : Mnemonic) (idxs : list nat) :
  strictly_sorted wordsListEn = true ->
  valid_words_num (len (strings_Split (Words m) " ")) ->
  at_positions wordsListEn (strings_Split (Words m) " ") idxs ->
  getBinaryStrings wordsListEn m
  = Ret (map char_of_bit (firstn (entropy_bit_len (length idxs)) (index_bits idxs)),
         map char_of_bit (stored_checksum idxs), None).
Proof.
  intros Hs Hv Hall. unfold getBinaryStrings.
  rewrite (proj2 (validateWordsNum_None _) Hv).
  rewrite (getBinaryStrings_loop_found _ _ Hs Hall []). cbn [bind].
  rewrite app_nil_l, (index_digits _ _ Hall).
  pose proof (at_positions_length _ _ Hall) as Hlen.
  apply getBinaryStrings_cut.
  - unfold len in Hv. now rewrite Hlen.
  - apply index_bits_length.
Qed.

Lemma words_count_valid (e : list byte) :
  valid_bits (8 * len e) ->
  valid_words_num (Z.of_nat (words_count (length e))) /\
  entropy_bit_len (words_count (length e)) = (8 * length e)%nat.
Proof.
  intros Hv. unfold valid_words_num, words_count, entropy_bit_len.
  destruct (valid_bits_length e Hv) as [H|[H|[H|[H|H]]]]; rewrite H; cbv; lia.
Qed.

Lemma bits_eqb_refl (a : list bool) : bits_eqb a a = true.
Proof. unfold bits_eqb. now destruct (list_eq_dec bool_dec a a). Qed.

(* ----------------------------------------------------------------- *)
(** *** The claims on the mnemonic codec *)

(** The table is sorted for the byte order of strings, and its words hold
    no space and are not empty. *)
Hypothesis wordsListEn_sorted : strictly_sorted wordsListEn = true.
Hypothesis wordsListEn_no_spaces : no_spaces wordsListEn = true.
Hypothesis wordsListEn_no_empty : no_empty_word wordsListEn = true.

(** C1: round trip. For every entropy whose bit length is one of 128,
    160, 192, 224, 256, [MnemonicFromEntropy] succeeds, and [ToEntropy] on
    the mnemonic it returns succeeds and gives back exactly that entropy. *)
Theorem entropy_round_trip (e : list byte) :
  valid_bits (8 * len e) ->
  exists m : Mnemonic,
    MnemonicFromEntropy wordsListEn sha256_Sum256 e = Ret (Some m, None) /\
    ToEntropy wordsListEn sha256_Sum256 m = Ret (Some e, None).
Proof.
  intros Hv. eexists. split; [apply MnemonicFromEntropy_valid; exact Hv|].
  set (bits := mnemonic_bits sha256_Sum256 e).
  set (n := words_count (length e)).
  set (ws := map (word_of_group wordsListEn bits) (seq 0 n)).
  set (idxs := map (group_index bits) (seq 0 n)).
  pose proof (mnemonic_bits_length e Hv) as Hbits. fold bits n in Hbits.
  destruct (words_count_valid e Hv) as [Hn Hent]. fold n in Hn, Hent.
  clearbody n.
  assert (Hrange : Forall (fun k => 11 * (k + 1) <= length bits)%nat (seq 0 n))
    by (apply seq_groups_in_range; lia).
  assert (Hsplit : strings_Split (strings_Join ws (lit " ")) " " = ws).
  { apply strings_Split_Join.
    - intros E. apply (f_equal (@length _)) in E. unfold ws in E.
      rewrite length_map, length_seq in E. cbn [length] in E.
      unfold valid_words_num in Hn. lia.
    - apply encoded_no_spaces. exact wordsListEn_no_spaces. }
  assert (Hidx : length idxs = n) by (unfold idxs; now rewrite length_map, length_seq).
  assert (Hib : index_bits idxs = bits).
  { unfold idxs. rewrite (encoded_index_bits bits _ Hrange), concat_groups by lia.
    apply firstn_all2. lia. }
  rewrite (ToEntropy_at_positions _ idxs).
  - unfold decoded_entropy, stored_checksum. rewrite Hidx, Hib, Hent.
    assert (Hfirst : firstn (8 * length e) bits = bits_of_bytes e).
    { unfold bits, mnemonic_bits. rewrite <- (bits_of_bytes_length e).
      now rewrite firstn_app, firstn_all, Nat.sub_diag, firstn_0, app_nil_r. }
    assert (Hskip : skipn (8 * length e) bits = computed_checksum sha256_Sum256 e).
    { unfold bits, mnemonic_bits, computed_checksum.
      rewrite <- (bits_of_bytes_length e) at 1.
      now rewrite skipn_app, skipn_all, Nat.sub_diag, skipn_0, app_nil_l. }
    rewrite Hfirst, Hskip.
    replace (8 * length e / 8)%nat with (length e)
      by (symmetry; rewrite Nat.mul_comm; apply Nat.div_mul; lia).
    rewrite bytes_of_bits_of_bytes, bits_eqb_refl. reflexivity.
  - now rewrite Hidx.
  - apply getBinaryStrings_found.
    + exact wordsListEn_sorted.
    + cbn [Words]. rewrite Hsplit. unfold len, ws.
      now rewrite length_map, length_seq.
    + cbn [Words]. rewrite Hsplit. now apply encoded_positions.
Qed.

Variable Hash : Type.
Variable sha512_New : Hash.
Variable pbkdf2_Key : list byte -> list byte -> Z -> Z -> Hash -> list byte.

Lemma decode_fails_intro (m : Mnemonic) (err : error) :
  ToEntropy wordsListEn sha256_Sum256 m = Ret (None, Some err) ->
  decode_fails wordsListEn sha256_Sum256 sha512_New pbkdf2_Key m err.
Proof.
  intros H. unfold decode_fails, IsValid, GenerateSeed.
  rewrite Validate_ToEntropy, H. cbn. auto.
Qed.

Lemma decode_succeeds_intro (m : Mnemonic) (ent : list byte) :
  ToEntropy wordsListEn sha256_Sum256 m = Ret (Some ent, None) ->
  decode_succeeds wordsListEn sha256_Sum256 sha512_New pbkdf2_Key m ent.
Proof.
  intros H. unfold decode_succeeds, IsValid, GenerateSeed.
  rewrite Validate_ToEntropy, H. cbn. auto.
Qed.

Lemma ToEntropy_words_num (m : Mnemonic) :
  ~ valid_words_num (len (strings_Split (Words m) " ")) ->
  ToEntropy wordsListEn sha256_Sum256 m = Ret (None, Some ErrWordsNum).
Proof.
  intros H. unfold ToEntropy, getBinaryStrings.
  now rewrite (validateWordsNum_Some _ H).
Qed.

Lemma ToEntropy_invalid_word (m : Mnemonic) :
  valid_words_num (len (strings_Split (Words m) " ")) ->
  ~ Forall (fun w => In w wordsListEn) (strings_Split (Words m) " ") ->
  ToEntropy wordsListEn sha256_Sum256 m = Ret (None, Some ErrInvalidWord).
Proof using.
  intros Hv Hn. unfold ToEntropy, getBinaryStrings.
  rewrite (proj2 (validateWordsNum_None _) Hv).
  now rewrite (getBinaryStrings_loop_invalid _ [] Hn).
Qed.

(** C3: error priority of the decode path. A word count outside 12, 15,
    18, 21, 24 gives the words-count error whatever the words are; with a
    valid count, a word outside the table gives the invalid-word error
    whatever the checksum would be; and only with a valid count and all
    words in the table is the checksum compared, a mismatch giving the
    checksum error.  [ToEntropy], [Validate], [IsValid] and [GenerateSeed]
    agree on each of these. *)
Theorem error_priority (m : Mnemonic) :
  let ws := strings_Split (Words m) " " in
  (~ valid_words_num (len ws) ->
   decode_fails wordsListEn sha256_Sum256 sha512_New pbkdf2_Key m ErrWordsNum) /\
  (valid_words_num (len ws) -> ~ Forall (fun w => In w wordsListEn) ws ->
   decode_fails wordsListEn sha256_Sum256 sha512_New pbkdf2_Key m ErrInvalidWord) /\
  (valid_words_num (len ws) -> Forall (fun w => In w wordsListEn) ws ->
   exists idxs,
     at_positions wordsListEn ws idxs /\
     if bits_eqb (computed_checksum sha256_Sum256 (decoded_entropy idxs))
                 (stored_checksum idxs)
     then decode_succeeds wordsListEn sha256_Sum256 sha512_New pbkdf2_Key m
            (decoded_entropy idxs)
     else decode_fails wordsListEn sha256_Sum256 sha512_New pbkdf2_Key m
            ErrChecksum).
Proof.
  cbv zeta. split; [|split].
  - intros H. apply decode_fails_intro, ToEntropy_words_num, H.
  - intros Hv Hn. apply decode_fails_intro, ToEntropy_invalid_word; assumption.
  - intros Hv Hall. destruct (In_at_positions _ Hall) as [idxs Hpos].
    exists idxs. split; [exact Hpos|].
    pose proof (getBinaryStrings_found m idxs wordsListEn_sorted Hv Hpos) as Hg.
    assert (Hv' : valid_words_num (Z.of_nat (length idxs))).
    { rewrite (at_positions_length _ _ Hpos). exact Hv. }
    pose proof (ToEntropy_at_positions m idxs Hv' Hg) as Ht.
    destruct (bits_eqb _ _).
    + now apply decode_succeeds_intro.
    + now apply decode_fails_intro.
Qed.

(** C9: an empty token. When the split on single spaces has a valid count
    but holds an empty token, [ToEntropy], [Validate] and [GenerateSeed]
    return the invalid-word error, without a panic: the empty string is
    searched like any word and is not in the table. *)
Theorem empty_token_invalid_word (m : Mnemonic) :
  valid_words_num (len (strings_Split (Words m) " ")) ->
  In [] (strings_Split (Words m) " ") ->
  stringBinarySearch wordsListEn [] = Ret (-1) /\
  decode_fails wordsListEn sha256_Sum256 sha512_New pbkdf2_Key m ErrInvalidWord.
Proof using wordsListEn_no_empty.
  intros Hv Hin.
  assert (Hnot : ~ In [] wordsListEn).
  { intros H. unfold no_empty_word in wordsListEn_no_empty.
    rewrite forallb_forall in wordsListEn_no_empty.
    now pose proof (wordsListEn_no_empty _ H). }
  split; [now apply stringBinarySearch_not_in|].
  apply decode_fails_intro, ToEntropy_invalid_word; [exact Hv|].
  intros Hall. rewrite Forall_forall in Hall. exact (Hnot (Hall _ Hin)).
Qed.

(** C10: after a successful [getBinaryStrings]. The number [N] of words
    is then one of 12, 15, 18, 21, 24; the entropy part has
    [N*11 - (N*11)/33] characters, a positive multiple of 8, all of them
    binary digits; so [binaryStringToBytes] on it returns a slice and the
    nil error, and the error that [ToEntropy] and [Validate] drop is never
    set. *)
Theorem entropy_part_well_formed (m : Mnemonic) (e c : gostring) :
  getBinaryStrings wordsListEn m = Ret (e, c, None) ->
  let N := len (strings_Split (Words m) " ") in
  valid_words_num N /\
  len e = N * 11 - Z.quot (N * 11) 33 /\
  0 < len e /\ Z.rem (len e) 8 = 0 /\
  is_bin e = true /\
  exists ent, binaryStringToBytes e = Ret (Some ent, None).
Proof.
  intros Hg. cbv zeta.
  assert (Hv : valid_words_num (len (strings_Split (Words m) " "))).
  { destruct (validateWordsNum (len (strings_Split (Words m) " "))) eqn:E.
    - unfold getBinaryStrings in Hg. rewrite E in Hg. discriminate.
    - now apply validateWordsNum_None. }
  split; [exact Hv|].
  destruct (getBinaryStrings_cases m Hv) as [Hbad|[idxs [Hpos Hok]]];
    [rewrite Hbad in Hg; discriminate|].
  rewrite Hok in Hg. injection Hg as <- <-.
  pose proof (at_positions_length _ _ Hpos) as Hlen.
  assert (Hv' : valid_words_num (Z.of_nat (length idxs))) by (now rewrite Hlen).
  rewrite len_map. unfold len. rewrite length_firstn, index_bits_length, <- Hlen.
  rewrite is_bin_char_of_bit, (decoded_entropy_bytes idxs Hv').
  unfold entropy_bit_len.
  destruct (valid_words_num_cases _ Hv') as [H|[H|[H|[H|H]]]]; rewrite H;
    (repeat split; [reflexivity .. | eauto]).
Qed.

(** C4: the word-count law and the words themselves. For an entropy of
    [bits] bits, [bits] one of 128, 160, 192, 224, 256, the words of
    [MnemonicFromEntropy], split on single spaces, are exactly
    [(bits + bits/32) / 11], a number among 12, 15, 18, 21, 24; and the
    [k]-th word is the table entry at the index that the [k]-th group of
    eleven bits denotes, big-endian, in the entropy bits followed by the
    leading [bits/32] bits of the SHA-256 hash. *)
Theorem word_count_law (e : list byte) :
  valid_bits (8 * len e) ->
  exists m : Mnemonic,
    MnemonicFromEntropy wordsListEn sha256_Sum256 e = Ret (Some m, None) /\
    let ws := strings_Split (Words m) " " in
    let bits := 8 * len e in
    len ws = (bits + bits / 32) / 11 /\
    valid_words_num (len ws) /\
    forall k : nat, (k < length ws)%nat ->
      exists w, nth_error ws k = Some w /\
                nth_error wordsListEn
                  (Z.to_nat (be_value (firstn 11 (skipn (11 * k)
                     (bits_of_bytes e ++
                      firstn (Z.to_nat (bits / 32))
                        (bits_of_bytes (sha256_Sum256 e)))))))
                = Some w.
Proof.
  intros Hv. eexists. split; [apply MnemonicFromEntropy_valid; exact Hv|].
  cbv zeta. cbn [Words].
  set (bits := mnemonic_bits sha256_Sum256 e).
  set (n := words_count (length e)).
  pose proof (mnemonic_bits_length e Hv) as Hbits. fold bits n in Hbits.
  destruct (words_count_valid e Hv) as [Hn _]. fold n in Hn.
  assert (Hcount : Z.of_nat n = (8 * len e + 8 * len e / 32) / 11).
  { unfold n, words_count, len.
    destruct (valid_bits_length e Hv) as [H|[H|[H|[H|H]]]]; rewrite H; reflexivity. }
  assert (Hchk : Z.to_nat (8 * len e / 32) = (8 * length e / 32)%nat).
  { unfold len.
    destruct (valid_bits_length e Hv) as [H|[H|[H|[H|H]]]]; rewrite H; reflexivity. }
  clearbody n.
  assert (Hrange : Forall (fun k => 11 * (k + 1) <= length bits)%nat (seq 0 n))
    by (apply seq_groups_in_range; lia).
  rewrite strings_Split_Join.
  - set (ws := map (word_of_group wordsListEn bits) (seq 0 n)).
    assert (Hlen : length ws = n) by (unfold ws; now rewrite length_map, length_seq).
    replace (len ws) with (Z.of_nat n) by (unfold len; now rewrite Hlen).
    rewrite Hlen.
    split; [exact Hcount|]. split; [exact Hn|].
    intros k Hk. exists (word_of_group wordsListEn bits k). split.
    + unfold ws. rewrite nth_error_map, nth_error_seq.
      replace (k <? n)%nat with true by (symmetry; apply Nat.ltb_lt; exact Hk).
      reflexivity.
    + rewrite Hchk. fold (mnemonic_bits sha256_Sum256 e). fold bits.
      fold (group 11 k bits). unfold word_of_group. apply nth_error_nth'.
      pose proof (word_index_bound bits k ltac:(lia)). lia.
  - intros E. apply (f_equal (@length _)) in E.
    rewrite length_map, length_seq in E. cbn [length] in E.
    unfold valid_words_num in Hn. lia.
  - apply encoded_no_spaces. exact wordsListEn_no_spaces.
Qed.

(** [ToEntropy] always returns: the decode path has no panic. *)
Lemma ToEntropy_total (m : Mnemonic) :
  exists r, ToEntropy wordsListEn sha256_Sum256 m = Ret r.
Proof.
  destruct (validateWordsNum (len (strings_Split (Words m) " "))) eqn:E.
  - unfold ToEntropy, getBinaryStrings. rewrite E. cbn. eauto.
  - apply validateWordsNum_None in E.
    destruct (getBinaryStrings_cases m E) as [Hbad|[idxs [Hpos Hok]]].
    + unfold ToEntropy. rewrite Hbad. cbn. eauto.
    + rewrite (ToEntropy_at_positions m idxs); [eauto | | exact Hok].
      now rewrite (at_positions_length _ _ Hpos).
Qed.

(** C2: seed generation. For every mnemonic and every passphrase, the
    empty one too, [GenerateSeed] runs the full validation: [Validate]
    returns, without a panic, and [GenerateSeed] returns its error as it
    is with a nil seed, or, when it is nil, PBKDF2 of the bytes of the
    words, salted with the bytes of "mnemonic" followed by the passphrase,
    2048 rounds, 64 bytes, SHA-512.  What the validation returns is pinned
    on every input: the words-number error for a number of words outside
    12, 15, 18, 21, 24; the invalid-word error for a valid number with a
    word outside the table; and, with all words in the table, nil when the
    stored checksum bits are the recomputed ones and the checksum error
    when they are not.  So the seed is returned for exactly the valid
    mnemonics. *)
Theorem GenerateSeed_spec (m : Mnemonic) (p : gostring) :
  let ws := strings_Split (Words m) " " in
  let seed := pbkdf2_Key (bytes_of_gostring (Words m))
                (bytes_of_gostring (lit "mnemonic" ++ p)) 2048 64 sha512_New in
  let generate :=
    GenerateSeed wordsListEn sha256_Sum256 Hash sha512_New pbkdf2_Key m p in
  (exists v : option error,
     Validate wordsListEn sha256_Sum256 m = Ret v /\
     generate = Ret (match v with
                     | Some err => (None, Some err)
                     | None => (Some seed, None)
                     end)) /\
  (~ valid_words_num (len ws) ->
   Validate wordsListEn sha256_Sum256 m = Ret (Some ErrWordsNum) /\
   generate = Ret (None, Some ErrWordsNum)) /\
  (valid_words_num (len ws) -> ~ Forall (fun w => In w wordsListEn) ws ->
   Validate wordsListEn sha256_Sum256 m = Ret (Some ErrInvalidWord) /\
   generate = Ret (None, Some ErrInvalidWord)) /\
  (valid_words_num (len ws) ->
   forall idxs : list nat, at_positions wordsListEn ws idxs ->
     if bits_eqb (computed_checksum sha256_Sum256 (decoded_entropy idxs))
                 (stored_checksum idxs)
     then Validate wordsListEn sha256_Sum256 m = Ret None /\
          generate = Ret (Some seed, None)
     else Validate wordsListEn sha256_Sum256 m = Ret (Some ErrChecksum) /\
          generate = Ret (None, Some ErrChecksum)).
Proof.
  cbv zeta.
  assert (K : forall ent err,
             ToEntropy wordsListEn sha256_Sum256 m = Ret (ent, err) ->
             Validate wordsListEn sha256_Sum256 m = Ret err /\
             GenerateSeed wordsListEn sha256_Sum256 Hash sha512_New pbkdf2_Key m p
             = Ret (match err with
                    | Some e => (None, Some e)
                    | None =>
                        (Some (pbkdf2_Key (bytes_of_gostring (Words m))
                                 (bytes_of_gostring (lit "mnemonic" ++ p))
                                 2048 64 sha512_New), None)
                    end)).
  { intros ent err H. unfold GenerateSeed.
    rewrite Validate_ToEntropy, H. cbn [bind snd].
    split; [reflexivity | now destruct err]. }
  split; [|split; [|split]].
  - destruct (ToEntropy_total m) as [[ent err] Hr].
    exists err. exact (K ent err Hr).
  - intros Hn. exact (K _ _ (ToEntropy_words_num m Hn)).
  - intros Hv Hn. exact (K _ _ (ToEntropy_invalid_word m Hv Hn)).
  - intros Hv idxs Hpos.
    pose proof (getBinaryStrings_found m idxs wordsListEn_sorted Hv Hpos) as Hg.
    assert (Hv' : valid_words_num (Z.of_nat (length idxs))).
    { rewrite (at_positions_length _ _ Hpos). exact Hv. }
    pose proof (ToEntropy_at_positions m idxs Hv' Hg) as Ht.
    destruct (bits_eqb _ _); exact (K _ _ Ht).
Qed.

(* ----------------------------------------------------------------- *)
(** *** Entropy generation *)

Variable RandSrc : Type.
Variable rand_Read : RandSrc -> list byte -> RandSrc * list byte * option error.

Lemma GenerateEntropy_invalid (r : RandSrc) (bitLen : Z) :
  ~ valid_bits bitLen ->
  GenerateEntropy RandSrc rand_Read r bitLen = (r, None, Some ErrEntropyBitLen).
Proof.
  intros H. unfold GenerateEntropy. now rewrite (validateEntropyBitLen_Some _ H).
Qed.

(** On a valid length the buffer goes back to the caller together with
    the error of the read, whatever it is. *)
Lemma GenerateEntropy_valid (r r' : RandSrc) (bitLen : Z) (buf : list byte)
    (err : option error) :
  valid_bits bitLen ->
  rand_Read r (repeat x00 (Z.to_nat (Z.quot bitLen 8))) = (r', buf, err) ->
  GenerateEntropy RandSrc rand_Read r bitLen = (r', Some buf, err).
Proof.
  intros Hv Hr. unfold GenerateEntropy.
  rewrite (proj2 (validateEntropyBitLen_None _) Hv). now rewrite Hr.
Qed.

(** [MnemonicFromWordsNum] encodes the buffer of [GenerateEntropy] for the
    bit length [wordsNum*11 - wordsNum/3], and the error of the read does
    not reach its result. *)
Lemma MnemonicFromWordsNum_ignores_read_error (r r' : RandSrc) (wordsNum : Z)
    (buf : list byte) (err : option error) :
  valid_words_num wordsNum ->
  rand_Read r (repeat x00 (Z.to_nat (Z.quot (wordsNum * 11 - Z.quot wordsNum 3) 8)))
  = (r', buf, err) ->
  len buf = Z.quot (wordsNum * 11 - Z.quot wordsNum 3) 8 ->
  exists m,
    MnemonicFromWordsNum wordsListEn sha256_Sum256 RandSrc rand_Read r wordsNum
    = (r', Ret (Some m, None)).
Proof.
  intros Hv Hr Hl. unfold MnemonicFromWordsNum.
  rewrite (proj2 (validateWordsNum_None _) Hv).
  assert (Hb : valid_bits (wordsNum * 11 - Z.quot wordsNum 3)).
  { unfold valid_words_num in Hv. unfold valid_bits.
    destruct Hv as [H|[H|[H|[H|H]]]]; subst wordsNum; cbv; auto. }
  rewrite (GenerateEntropy_valid r r' _ buf err Hb Hr). cbn [elems].
  eexists. f_equal. apply MnemonicFromEntropy_valid.
  rewrite Hl. unfold valid_words_num in Hv. unfold valid_bits.
  destruct Hv as [H|[H|[H|[H|H]]]]; subst wordsNum; cbv; auto.
Qed.

End Codec.

(* ================================================================= *)
(** ** The claims on the bit-string codec *)

(** C8: the two conversions are inverse of each other. For every byte
    sequence [b], [binaryStringToBytes (bytesToBinaryString b)] succeeds
    and returns [b]; for every string [s] of characters 0 and 1 whose
    length is a multiple of 8, [binaryStringToBytes s] succeeds and
    [bytesToBinaryString] of its result is [s]. *)
Theorem bit_string_codec_inverse :
  (forall b : list byte,
     binaryStringToBytes (bytesToBinaryString b) = Ret (Some b, None)) /\
  (forall s : gostring,
     is_bin s = true -> Z.rem (len s) 8 = 0 ->
     exists b : list byte,
       binaryStringToBytes s = Ret (Some b, None) /\
       bytesToBinaryString b = s).
Proof.
  split.
  - intros b. rewrite bytesToBinaryString_bits.
    rewrite (binaryStringToBytes_bin _ (length b)).
    + now rewrite bit_of_char_of_bit, bytes_of_bits_of_bytes.
    + now rewrite length_map, bits_of_bytes_length.
    + apply is_bin_char_of_bit.
  - intros s Hb Hr. destruct (rem8_length s Hr) as [m Hm].
    exists (bytes_of_bits m (map bit_of_char s)). split.
    + now apply binaryStringToBytes_bin.
    + rewrite bytesToBinaryString_bits, bits_of_bytes_of_bits
        by (now rewrite length_map).
      now apply char_of_bit_of_char.
Qed.

(** C5, as the code has it. [binaryStringToBytes] fails with
    [ErrBinaryString] exactly when the length is not a multiple of 8.
    When the length is a multiple of 8: a string of characters 0 and 1
    converts, each group of eight digits giving one byte, most significant
    bit first; and a string holding a character other than 0, 1, + and -
    fails with the syntax error of [strconv.ParseInt] on the first group
    that does not parse, not with [ErrBinaryString]. *)
Theorem binaryStringToBytes_spec (s : gostring) :
  (binaryStringToBytes s = Ret (None, Some ErrBinaryString)
   <-> Z.rem (len s) 8 <> 0) /\
  (Z.rem (len s) 8 = 0 -> is_bin s = true ->
   binaryStringToBytes s
   = Ret (Some (bytes_of_bits (Z.to_nat (len s / 8)) (map bit_of_char s)), None)) /\
  (Z.rem (len s) 8 = 0 -> forallb is_sign_or_bin s = false ->
   exists num : gostring,
     binaryStringToBytes s
     = Ret (None, Some (NumError (lit "ParseInt") num ErrSyntax))).
Proof.
  split; [|split].
  - split.
    + intros H Hr. destruct (binaryStringToBytes_cases s Hr) as [[bs [Hbs _]]|[num Hn]];
        rewrite H in *; discriminate.
    + intros Hr. unfold binaryStringToBytes.
      destruct (Z.rem (len s) 8 =? 0) eqn:E; [|reflexivity].
      apply Z.eqb_eq in E. contradiction.
  - intros Hr Hb. destruct (rem8_length s Hr) as [m Hm].
    replace (Z.to_nat (len s / 8)) with m.
    + now apply binaryStringToBytes_bin.
    + unfold len. rewrite Hm, Nat2Z.inj_mul, Z.mul_comm, Z.div_mul by lia.
      now rewrite Nat2Z.id.
  - intros Hr Hbad.
    destruct (binaryStringToBytes_cases s Hr) as [[bs [_ Hall]]|Hn];
      [congruence | exact Hn].
Qed.

(** C5, as the claim has it, fails on a string of eight characters with a
    letter in it: the error is the syntax error of [strconv], and
    [ErrBinaryString] is not returned. *)
Lemma binaryStringToBytes_letter_not_ErrBinaryString :
  ~ (binaryStringToBytes (lit "0000a001") = Ret (None, Some ErrBinaryString)
     <-> (Z.rem (len (lit "0000a001")) 8 <> 0 \/ is_bin (lit "0000a001") = false)).
Proof.
  intros [_ H]. specialize (H (or_intror eq_refl)). vm_compute in H. discriminate.
Qed.

(** A group that starts with a sign is taken by [ParseInt]: such a string
    converts although it is not made of binary digits only. *)
Lemma binaryStringToBytes_signed_group :
  binaryStringToBytes (lit "+0000001-0000001") = Ret (Some [x01; xff], None).
Proof. reflexivity. Qed.

(* ================================================================= *)
(** ** The claims on entropy generation, on a failing random source *)

(** C6, on the code. With the valid length 128 and a random source whose
    read fails, [GenerateEntropy] returns the error together with the
    sixteen-byte buffer, not a nil slice. *)
Theorem GenerateEntropy_read_failure_returns_buffer :
  GenerateEntropy unit Demo.read_fail tt 128
  = (tt, Some (repeat x00 16),
     Some (RandError (lit "entropy source unavailable"))).
Proof. reflexivity. Qed.

(** C7, on the code. With twelve words and a random source whose read
    fails, the entropy generation inside [MnemonicFromWordsNum] reports
    the error, and [MnemonicFromWordsNum] still returns a mnemonic (the
    one of the untouched zero buffer) with a nil error. *)
Theorem MnemonicFromWordsNum_read_failure_returns_mnemonic :
  snd (GenerateEntropy unit Demo.read_fail tt (12 * 11 - Z.quot 12 3))
  = Some (RandError (lit "entropy source unavailable")) /\
  MnemonicFromWordsNum Demo.words Demo.sum256 unit Demo.read_fail tt 12
  = (tt, Ret (Some Demo.good, None)).
Proof. split; [reflexivity | vm_compute; reflexivity]. Qed.

(* ================================================================= *)
(** ** The theorems at work on the small instances *)

Lemma In_existsb (x : gostring) (l : list gostring) :
  In x l -> existsb (gostring_eqb x) l = true.
Proof.
  intros H. apply existsb_exists. exists x. split; [exact H|].
  apply gostring_eqb_refl.
Qed.

Lemma forallb_In (ws l : list gostring) :
  forallb (fun w => existsb (gostring_eqb w) l) ws = true ->
  Forall (fun w => In w l) ws.
Proof.
  intros H. rewrite forallb_forall in H. apply Forall_forall. intros w Hw.
  apply H in Hw. apply existsb_exists in Hw as [x [Hx E]].
  apply gostring_eqb_eq in E. now subst.
Qed.

Lemma existsb_is_empty (ws : list gostring) :
  existsb is_empty ws = true -> In [] ws.
Proof.
  intros H. apply existsb_exists in H as [x [Hx E]].
  destruct x; [exact Hx | discriminate].
Qed.

Lemma entropy_round_trip_witness :
  exists m : Mnemonic,
    MnemonicFromEntropy Demo.words Demo.sum256 Demo.entropy = Ret (Some m, None) /\
    ToEntropy Demo.words Demo.sum256 m = Ret (Some Demo.entropy, None).
Proof.
  apply (entropy_round_trip Demo.words Demo.sum256).
  - vm_compute. reflexivity.
  - intros m. reflexivity.
  - vm_compute. reflexivity.
  - vm_compute. reflexivity.
  - left. reflexivity.
Defined.

Lemma at_positions_check (table ws : list gostring) (idxs : list nat) :
  forallb (fun i => Nat.ltb i (length table)) idxs = true ->
  ws = map (fun i => nth i table []) idxs ->
  at_positions table ws idxs.
Proof.
  intros Hb ->. induction idxs as [|i idxs IH]; [constructor|].
  cbn in Hb. apply andb_true_iff in Hb as [Hi Hb].
  constructor; [|exact (IH Hb)].
  apply nth_error_nth'. now apply Nat.ltb_lt.
Qed.

Lemma GenerateSeed_spec_witness :
  (Validate Demo.words Demo.sum256 Demo.eleven_unknown = Ret (Some ErrWordsNum) /\
   GenerateSeed Demo.words Demo.sum256 unit tt Demo.key Demo.eleven_unknown
     (lit "TREZOR") = Ret (None, Some ErrWordsNum)) /\
  (Validate Demo.words Demo.sum256 Demo.unknown = Ret (Some ErrInvalidWord) /\
   GenerateSeed Demo.words Demo.sum256 unit tt Demo.key Demo.unknown
     (lit "TREZOR") = Ret (None, Some ErrInvalidWord)) /\
  (Validate Demo.words Demo.sum256 Demo.tampered = Ret (Some ErrChecksum) /\
   GenerateSeed Demo.words Demo.sum256 unit tt Demo.key Demo.tampered
     (lit "TREZOR") = Ret (None, Some ErrChecksum)) /\
  (Validate Demo.words Demo.sum256 Demo.good = Ret None /\
   GenerateSeed Demo.words Demo.sum256 unit tt Demo.key Demo.good []
   = Ret (Some (Demo.key (bytes_of_gostring (Words Demo.good))
                  (bytes_of_gostring (lit "mnemonic")) 2048 64 tt), None)).
Proof.
  assert (P := fun H1 H2 H3 =>
                 GenerateSeed_spec Demo.words Demo.sum256 H1 H2 H3 unit tt Demo.key).
  assert (H1 : length Demo.words = 2048%nat) by (vm_compute; reflexivity).
  assert (H2 : forall m, length (Demo.sum256 m) = 32%nat) by (intros m; reflexivity).
  assert (H3 : strictly_sorted Demo.words = true) by (vm_compute; reflexivity).
  split; [|split; [|split]].
  - apply (proj1 (proj2 (P H1 H2 H3 Demo.eleven_unknown (lit "TREZOR")))).
    vm_compute. intros [H|[H|[H|[H|H]]]]; discriminate.
  - apply (proj1 (proj2 (proj2 (P H1 H2 H3 Demo.unknown (lit "TREZOR"))))).
    + vm_compute. left. reflexivity.
    + intros H. rewrite Forall_forall in H.
      assert (Hin : In (lit "notexistent") (strings_Split (Words Demo.unknown) " "))
        by (vm_compute; tauto).
      apply H, In_existsb in Hin. vm_compute in Hin. discriminate.
  - assert (Hpos : at_positions Demo.words
                     (strings_Split (Words Demo.tampered) " ")
                     (repeat 0%nat 11 ++ [6%nat]))
      by (apply at_positions_check; vm_compute; reflexivity).
    assert (Hv : valid_words_num (len (strings_Split (Words Demo.tampered) " ")))
      by (vm_compute; left; reflexivity).
    assert (Hc : bits_eqb
                   (computed_checksum Demo.sum256
                      (decoded_entropy (repeat 0%nat 11 ++ [6%nat])))
                   (stored_checksum (repeat 0%nat 11 ++ [6%nat])) = false)
      by (vm_compute; reflexivity).
    pose proof (proj2 (proj2 (proj2 (P H1 H2 H3 Demo.tampered (lit "TREZOR"))))
                  Hv _ Hpos) as H.
    rewrite Hc in H. exact H.
  - assert (Hpos : at_positions Demo.words
                     (strings_Split (Words Demo.good) " ")
                     (repeat 0%nat 11 ++ [5%nat]))
      by (apply at_positions_check; vm_compute; reflexivity).
    assert (Hv : valid_words_num (len (strings_Split (Words Demo.good) " ")))
      by (vm_compute; left; reflexivity).
    assert (Hc : bits_eqb
                   (computed_checksum Demo.sum256
                      (decoded_entropy (repeat 0%nat 11 ++ [5%nat])))
                   (stored_checksum (repeat 0%nat 11 ++ [5%nat])) = true)
      by (vm_compute; reflexivity).
    pose proof (proj2 (proj2 (proj2 (P H1 H2 H3 Demo.good [])))
                  Hv _ Hpos) as H.
    rewrite Hc in H. exact H.
Defined.

Lemma error_priority_witness :
  decode_fails Demo.words Demo.sum256 tt Demo.key Demo.eleven_unknown ErrWordsNum /\
  decode_fails Demo.words Demo.sum256 tt Demo.key Demo.unknown ErrInvalidWord /\
  exists idxs,
    at_positions Demo.words (strings_Split (Words Demo.tampered) " ") idxs /\
    if bits_eqb (computed_checksum Demo.sum256 (decoded_entropy idxs))
                (stored_checksum idxs)
    then decode_succeeds Demo.words Demo.sum256 tt Demo.key Demo.tampered
           (decoded_entropy idxs)
    else decode_fails Demo.words Demo.sum256 tt Demo.key Demo.tampered ErrChecksum.
Proof.
  assert (P := fun H1 H2 H3 =>
                 error_priority Demo.words Demo.sum256 H1 H2 H3 unit tt Demo.key).
  assert (H1 : length Demo.words = 2048%nat) by (vm_compute; reflexivity).
  assert (H2 : forall m, length (Demo.sum256 m) = 32%nat) by (intros m; reflexivity).
  assert (H3 : strictly_sorted Demo.words = true) by (vm_compute; reflexivity).
  split; [|split].
  - apply (P H1 H2 H3 Demo.eleven_unknown).
    vm_compute. intros [H|[H|[H|[H|H]]]]; discriminate.
  - apply (P H1 H2 H3 Demo.unknown).
    + vm_compute. left. reflexivity.
    + intros H. rewrite Forall_forall in H.
      assert (Hin : In (lit "notexistent") (strings_Split (Words Demo.unknown) " "))
        by (vm_compute; tauto).
      apply H, In_existsb in Hin. vm_compute in Hin. discriminate.
  - apply (P H1 H2 H3 Demo.tampered).
    + vm_compute. left. reflexivity.
    + apply forallb_In. vm_compute. reflexivity.
Defined.

Lemma empty_token_invalid_word_witness :
  stringBinarySearch Demo.words [] = Ret (-1) /\
  decode_fails Demo.words Demo.sum256 tt Demo.key Demo.double_space ErrInvalidWord.
Proof.
  apply (empty_token_invalid_word Demo.words Demo.sum256).
  - vm_compute. reflexivity.
  - vm_compute. left. reflexivity.
  - apply existsb_is_empty. vm_compute. reflexivity.
Defined.

Lemma entropy_part_well_formed_witness :
  let N := len (strings_Split (Words Demo.good) " ") in
  let e := repeat "0"%char 128 in
  valid_words_num N /\
  len e = N * 11 - Z.quot (N * 11) 33 /\
  0 < len e /\ Z.rem (len e) 8 = 0 /\
  is_bin e = true /\
  exists ent, binaryStringToBytes e = Ret (Some ent, None).
Proof.
  apply (entropy_part_well_formed Demo.words) with (c := lit "0101").
  - vm_compute. reflexivity.
  - vm_compute. reflexivity.
Defined.

Lemma word_count_law_witness :
  exists m : Mnemonic,
    MnemonicFromEntropy Demo.words Demo.sum256 Demo.entropy = Ret (Some m, None) /\
    let ws := strings_Split (Words m) " " in
    let bits := 8 * len Demo.entropy in
    len ws = (bits + bits / 32) / 11 /\
    valid_words_num (len ws) /\
    forall k : nat, (k < length ws)%nat ->
      exists w, nth_error ws k = Some w /\
                nth_error Demo.words
                  (Z.to_nat (be_value (firstn 11 (skipn (11 * k)
                     (bits_of_bytes Demo.entropy ++
                      firstn (Z.to_nat (bits / 32))
                        (bits_of_bytes (Demo.sum256 Demo.entropy)))))))
                = Some w.
Proof.
  apply (word_count_law Demo.words Demo.sum256).
  - vm_compute. reflexivity.
  - intros m. reflexivity.
  - vm_compute. reflexivity.
  - left. reflexivity.
Defined.

Lemma binaryStringToBytes_spec_witness :
  binaryStringToBytes (lit "0000000") = Ret (None, Some ErrBinaryString) /\
  binaryStringToBytes (lit "0000010110000000")
  = Ret (Some (bytes_of_bits 2 (map bit_of_char (lit "0000010110000000"))), None) /\
  exists num : gostring,
    binaryStringToBytes (lit "0000000100b00001")
    = Ret (None, Some (NumError (lit "ParseInt") num ErrSyntax)).
Proof.
  split; [|split].
  - apply (proj1 (binaryStringToBytes_spec (lit "0000000"))).
    vm_compute. discriminate.
  - apply (proj1 (proj2 (binaryStringToBytes_spec (lit "0000010110000000"))));
      reflexivity.
  - apply (proj2 (proj2 (binaryStringToBytes_spec (lit "0000000100b00001"))));
      reflexivity.
Defined.

Lemma bit_string_codec_inverse_witness :
  binaryStringToBytes (bytesToBinaryString [x00; x7f; x80; xff])
  = Ret (Some [x00; x7f; x80; xff], None) /\
  exists b : list byte,
    binaryStringToBytes (lit "0111111110000000") = Ret (Some b, None) /\
    bytesToBinaryString b = lit "0111111110000000".
Proof.
  split.
  - apply (proj1 bit_string_codec_inverse).
  - apply (proj2 bit_string_codec_inverse); reflexivity.
Defined.

(* ================================================================= *)
(** ** Further properties of the package *)

(** *** What [binaryStringToBytes] does group by group *)

(** The groups of eight characters of a string of [8 * n] characters. *)
Fixpoint groups8 (n : nat) (s : gostring) : list gostring :=
  match n with
  | O => []
  | S n' => firstn 8 s :: groups8 n' (skipn 8 s)
  end.

(** A group that [ParseInt] takes in base 2: binary digits, at least one,
    after an optional sign. *)
Definition group_ok (g : gostring) : bool :=
  let '(_, body) := sign_split g in
  is_bin body && negb (is_empty body).

(** The integer such a group denotes. *)
Definition group_value (g : gostring) : Z :=
  let '(neg, body) := sign_split g in
  if neg then - be_value (map bit_of_char body)
  else be_value (map bit_of_char body).

(** The conversion, read group by group: the bytes of the groups up to
    the first group that does not parse, whose syntax error ends it. *)
Fixpoint convert_groups (gs : list gostring) (acc : list byte)
  : option (list byte) * option error :=
  match gs with
  | [] => (Some acc, None)
  | g :: gs' =>
      if group_ok g
      then convert_groups gs' (acc ++ [byte_of_Z (group_value g)])
      else (None, Some (NumError (lit "ParseInt") g ErrSyntax))
  end.

Lemma ParseInt_group (g : gostring) :
  len g <= 15 ->
  ParseInt g 2 16
  = if group_ok g then (group_value g, None)
    else (0, Some (NumError (lit "ParseInt") g ErrSyntax)).
Proof.
  intros Hl. rewrite ParseInt_short by exact Hl.
  unfold group_ok, group_value. now destruct (sign_split g) as [neg body].
Qed.

Lemma binaryStringToBytes_loop_groups (m : nat) :
  forall (fuel : nat) (pre rest : gostring) (acc : list byte),
    length rest = (8 * m)%nat -> (m < fuel)%nat ->
    binaryStringToBytes_loop fuel (pre ++ rest) (len pre) acc
    = Ret (convert_groups (groups8 m rest) acc).
Proof.
  induction m as [|m IH]; intros fuel pre rest acc Hl Hf.
  - destruct rest; [|discriminate]. destruct fuel as [|fuel]; [lia|].
    cbn [binaryStringToBytes_loop groups8 convert_groups].
    now rewrite !app_nil_r, Z.ltb_irrefl.
  - destruct fuel as [|fuel]; [lia|].
    cbn [binaryStringToBytes_loop groups8 convert_groups].
    replace (len pre <? len (pre ++ rest)) with true
      by (symmetry; apply Z.ltb_lt; rewrite len_app; unfold len; lia).
    rewrite slice_middle by (unfold len; lia). cbn [bind].
    change (Z.to_nat 8) with 8%nat.
    assert (Hf8 : length (firstn 8 rest) = 8%nat) by (rewrite length_firstn; lia).
    rewrite ParseInt_group by (unfold len; lia).
    destruct (group_ok (firstn 8 rest)); [|reflexivity].
    assert (Hpre : len pre + 8 = len (pre ++ firstn 8 rest)).
    { rewrite len_app. unfold len. rewrite Hf8. lia. }
    assert (Hsplit : pre ++ rest = (pre ++ firstn 8 rest) ++ skipn 8 rest)
      by (now rewrite <- app_assoc, firstn_skipn).
    rewrite Hpre, Hsplit. apply IH; [rewrite length_skipn; lia | lia].
Qed.

Lemma convert_groups_shape (gs : list gostring) :
  forall acc : list byte,
    (exists bs, convert_groups gs acc = (Some bs, None)
                /\ length bs = (length acc + length gs)%nat) \/
    (exists g, In g gs /\ group_ok g = false /\
               convert_groups gs acc
               = (None, Some (NumError (lit "ParseInt") g ErrSyntax))).
Proof.
  induction gs as [|g gs IH]; intros acc.
  - left. exists acc. cbn. split; [reflexivity | lia].
  - cbn [convert_groups]. destruct (group_ok g) eqn:Hg.
    + destruct (IH (acc ++ [byte_of_Z (group_value g)]))
        as [[bs [Hbs Hlen]]|[g' [Hin [Hbad Hr]]]].
      * left. exists bs. split; [exact Hbs|].
        rewrite Hlen, length_app. cbn [length]. lia.
      * right. exists g'. split; [now right | split; assumption].
    + right. exists g. split; [now left | split; [exact Hg | reflexivity]].
Qed.

Lemma groups8_length (n : nat) (s : gostring) : length (groups8 n s) = n.
Proof.
  revert s. induction n as [|n IH]; intros s; cbn; [reflexivity|].
  now rewrite IH.
Qed.

Lemma binaryStringToBytes_groups (s : gostring) (m : nat) :
  length s = (8 * m)%nat ->
  binaryStringToBytes s = Ret (convert_groups (groups8 m s) []).
Proof.
  intros Hm. unfold binaryStringToBytes.
  replace (Z.rem (len s) 8) with 0
    by (unfold len; rewrite Hm, Nat2Z.inj_mul, Z.mul_comm; symmetry;
        apply Z.rem_mul; lia).
  cbn [Z.eqb negb].
  apply (binaryStringToBytes_loop_groups m (S (length s)) [] s []); [exact Hm | lia].
Qed.

(** The conversion as a function of the groups: for a length that is a
    multiple of 8, [binaryStringToBytes] is the group-by-group conversion;
    each group parses exactly when it is made of binary digits after an
    optional sign, and the error is the syntax error of the first group
    that does not. *)
Theorem binaryStringToBytes_by_groups (s : gostring) :
  Z.rem (len s) 8 = 0 ->
  binaryStringToBytes s
  = Ret (convert_groups (groups8 (Z.to_nat (len s / 8)) s) []).
Proof.
  intros Hr. destruct (rem8_length s Hr) as [m Hm].
  replace (Z.to_nat (len s / 8)) with m
    by (unfold len; rewrite Hm, Nat2Z.inj_mul, Z.mul_comm, Z.div_mul by lia;
        now rewrite Nat2Z.id).
  now apply binaryStringToBytes_groups.
Qed.

Lemma binaryStringToBytes_by_groups_witness :
  binaryStringToBytes (lit "-000000100000011")
  = Ret (convert_groups
           (groups8 (Z.to_nat (len (lit "-000000100000011") / 8))
                    (lit "-000000100000011")) []).
Proof. apply binaryStringToBytes_by_groups. reflexivity. Defined.

(** No partial result: [binaryStringToBytes] always returns, either a
    slice of exactly [len(s)/8] bytes with a nil error, or a nil slice
    with an error. *)
Theorem binaryStringToBytes_all_or_nothing (s : gostring) :
  (exists bs, binaryStringToBytes s = Ret (Some bs, None)
              /\ len s = 8 * len bs) \/
  (exists err, binaryStringToBytes s = Ret (None, Some err)).
Proof.
  destruct (Z.eq_dec (Z.rem (len s) 8) 0) as [Hr|Hr].
  - destruct (rem8_length s Hr) as [m Hm].
    rewrite (binaryStringToBytes_groups s m Hm).
    destruct (convert_groups_shape (groups8 m s) [])
      as [[bs [Hbs Hlen]]|[g [_ [_ Hg]]]].
    + left. exists bs. rewrite Hbs. split; [reflexivity|].
      rewrite groups8_length in Hlen. cbn [length] in Hlen.
      unfold len. lia.
    + right. rewrite Hg. eauto.
  - right. exists ErrBinaryString. unfold binaryStringToBytes.
    destruct (Z.rem (len s) 8 =? 0) eqn:E; [|reflexivity].
    apply Z.eqb_eq in E. contradiction.
Qed.

(** [bytesToBinaryString] writes exactly eight characters for each byte,
    all of them binary digits. *)
Theorem bytesToBinaryString_shape (b : list byte) :
  len (bytesToBinaryString b) = 8 * len b /\
  is_bin (bytesToBinaryString b) = true.
Proof.
  rewrite bytesToBinaryString_bits. split.
  - rewrite len_map. unfold len. rewrite bits_of_bytes_length. lia.
  - apply is_bin_char_of_bit.
Qed.

(** *** The binary search *)

(** On any slice, sorted or not, [stringBinarySearch] returns without a
    panic; a result other than -1 is a position of the slice that holds
    the searched string, and a string that is not in the slice gives -1. *)
Theorem stringBinarySearch_sound (a : list gostring) (x : gostring) :
  exists r : Z,
    stringBinarySearch a x = Ret r /\
    (r = -1 \/ (0 <= r < len a /\ nth_error a (Z.to_nat r) = Some x)) /\
    (~ In x a -> r = -1).
Proof.
  destruct (stringBinarySearch_total a x) as [r [Hr Hcase]].
  exists r. split; [exact Hr|]. split; [exact Hcase|].
  intros Hn. destruct Hcase as [E|[_ Hx]]; [exact E|].
  exfalso. apply Hn. eapply nth_error_In; eauto.
Qed.

Lemma stringBinarySearch_sound_witness :
  exists r : Z,
    stringBinarySearch [lit "b"; lit "a"; lit "c"] (lit "a") = Ret r /\
    (r = -1 \/ (0 <= r < len [lit "b"; lit "a"; lit "c"]
                /\ nth_error [lit "b"; lit "a"; lit "c"] (Z.to_nat r)
                   = Some (lit "a"))) /\
    (~ In (lit "a") [lit "b"; lit "a"; lit "c"] -> r = -1).
Proof. apply stringBinarySearch_sound. Defined.

(** On a strictly increasing slice the search is exact: it returns the
    position [i] exactly when the slice holds the string at [i], and -1
    exactly when the string is not in the slice. *)
Theorem stringBinarySearch_sorted (a : list gostring) (x : gostring) :
  strictly_sorted a = true ->
  (forall i : nat,
     stringBinarySearch a x = Ret (Z.of_nat i) <-> nth_error a i = Some x) /\
  (stringBinarySearch a x = Ret (-1) <-> ~ In x a).
Proof.
  intros Hs. split.
  - intros i. split.
    + intros H. destruct (stringBinarySearch_total a x) as [r [Hr [->|[_ Hx]]]].
      * rewrite H in Hr. injection Hr as Hr. lia.
      * rewrite H in Hr. injection Hr as <-. now rewrite Nat2Z.id in Hx.
    + now apply stringBinarySearch_found.
  - split.
    + intros H Hin. destruct (In_nth_error _ _ Hin) as [i Hi].
      rewrite (stringBinarySearch_found a i x Hs Hi) in H.
      injection H as H. lia.
    + apply stringBinarySearch_not_in.
Qed.

Lemma stringBinarySearch_sorted_witness :
  (forall i : nat,
     stringBinarySearch Demo.words (Demo.word_of 5) = Ret (Z.of_nat i)
     <-> nth_error Demo.words i = Some (Demo.word_of 5)) /\
  (stringBinarySearch Demo.words (Demo.word_of 5) = Ret (-1)
   <-> ~ In (Demo.word_of 5) Demo.words).
Proof.
  apply stringBinarySearch_sorted. vm_compute. reflexivity.
Defined.

(** *** The two tables of permitted sizes *)

(** The words numbers and the entropy bit lengths the package accepts
    correspond one to one: a words number [n] passes [validateWordsNum]
    exactly when the bit length [n*11 - n/3] that [MnemonicFromWordsNum]
    computes from it passes [validateEntropyBitLen], for the numbers a
    mnemonic can have; and a bit length [b] that passes gives back, as
    [(b + b/32)/11], a words number that passes and from which
    [n*11 - n/3] is [b] again. *)
Theorem sizes_correspond :
  (forall n : Z,
     validateWordsNum n = None ->
     validateEntropyBitLen (n * 11 - Z.quot n 3) = None /\
     Z.quot (n * 11 - Z.quot n 3 + Z.quot (n * 11 - Z.quot n 3) 32) 11 = n) /\
  (forall b : Z,
     validateEntropyBitLen b = None ->
     validateWordsNum (Z.quot (b + Z.quot b 32) 11) = None /\
     Z.quot (b + Z.quot b 32) 11 * 11 - Z.quot (Z.quot (b + Z.quot b 32) 11) 3 = b).
Proof.
  split.
  - intros n H. apply validateWordsNum_None in H.
    destruct H as [H|[H|[H|[H|H]]]]; subst n; split; reflexivity.
  - intros b H. apply validateEntropyBitLen_None in H.
    destruct H as [H|[H|[H|[H|H]]]]; subst b; split; reflexivity.
Qed.

Lemma sizes_correspond_witness :
  (validateEntropyBitLen (15 * 11 - Z.quot 15 3) = None /\
   Z.quot (15 * 11 - Z.quot 15 3 + Z.quot (15 * 11 - Z.quot 15 3) 32) 11 = 15) /\
  (validateWordsNum (Z.quot (224 + Z.quot 224 32) 11) = None /\
   Z.quot (224 + Z.quot 224 32) 11 * 11
   - Z.quot (Z.quot (224 + Z.quot 224 32) 11) 3 = 224).
Proof.
  split.
  - apply (proj1 sizes_correspond). reflexivity.
  - apply (proj2 sizes_correspond). reflexivity.
Defined.

(** *** Encoding and decoding, in both orders *)

Lemma strings_Join_Split (s : gostring) :
  strings_Join (strings_Split s " ") (lit " ") = s.
Proof.
  induction s as [|c s IH]; [reflexivity|].
  cbn [strings_Split]. destruct (c =? " ")%char eqn:Hc.
  - apply Ascii.eqb_eq in Hc. subst c.
    destruct (strings_Split s " ") as [|w ws] eqn:E;
      [now apply strings_Split_nonempty in E|].
    change (strings_Join ([] :: w :: ws) (lit " "))
      with (" "%char :: strings_Join (w :: ws) (lit " ")).
    now rewrite IH.
  - destruct (strings_Split s " ") as [|w ws] eqn:E;
      [now apply strings_Split_nonempty in E|].
    destruct ws as [|w' ws].
    + cbn [strings_Join] in *. now subst.
    + change (strings_Join ((c :: w) :: w' :: ws) (lit " "))
        with (c :: strings_Join (w :: w' :: ws) (lit " ")).
      now rewrite IH.
Qed.

Lemma bits_eqb_eq (a b : list bool) : bits_eqb a b = true -> a = b.
Proof.
  unfold bits_eqb. destruct (list_eq_dec bool_dec a b); [auto | discriminate].
Qed.

Lemma group_head (b rest : list bool) :
  length b = 11%nat -> group 11 0 (b ++ rest) = b.
Proof.
  intros H. unfold group. rewrite Nat.mul_0_r. cbn [skipn].
  rewrite firstn_app, H, Nat.sub_diag, firstn_0, app_nil_r.
  rewrite <- H. apply firstn_all.
Qed.

Lemma group_tail (b rest : list bool) (k : nat) :
  length b = 11%nat -> group 11 (S k) (b ++ rest) = group 11 k rest.
Proof.
  intros H. unfold group.
  replace (11 * S k)%nat with (11 * k + 11)%nat by lia.
  rewrite <- skipn_skipn.
  replace (skipn 11 (b ++ rest)) with rest; [reflexivity|].
  rewrite skipn_app, (skipn_all2 b) by lia.
  now rewrite H, Nat.sub_diag.
Qed.

Lemma entropy_bit_len_cases (n : nat) :
  valid_words_num (Z.of_nat n) ->
  entropy_bit_len n = (8 * (entropy_bit_len n / 8))%nat /\
  valid_bits (8 * Z.of_nat (entropy_bit_len n / 8)) /\
  words_count (entropy_bit_len n / 8) = n /\
  (8 * (entropy_bit_len n / 8) / 32 = 11 * n - entropy_bit_len n)%nat /\
  Z.of_nat (8 * (entropy_bit_len n / 8)) = Z.of_nat n * 11 - Z.quot (Z.of_nat n) 3.
Proof.
  intros Hv. unfold valid_bits.
  assert (Hn : n = 12%nat \/ n = 15%nat \/ n = 18%nat \/ n = 21%nat \/ n = 24%nat)
    by (unfold valid_words_num in Hv; lia).
  destruct Hn as [H|[H|[H|[H|H]]]]; subst n; cbv; repeat split; auto 6.
Qed.

Section CodecMore.

Variable wordsListEn : list gostring.
Variable sha256_Sum256 : list byte -> list byte.
Hypothesis wordsListEn_length : length wordsListEn = 2048%nat.
Hypothesis Sum256_length : forall m, length (sha256_Sum256 m) = 32%nat.

(** The words at the positions [idxs] are the words of the groups of the
    bits these positions spell. *)
Lemma words_of_index_bits (ws : list gostring) (idxs : list nat) :
  at_positions wordsListEn ws idxs ->
  map (word_of_group wordsListEn (index_bits idxs)) (seq 0 (length idxs)) = ws.
Proof.
  induction 1 as [|w i ws idxs Hw _ IH]; [reflexivity|].
  cbn [length seq map]. cbn [index_bits flat_map]. fold (index_bits idxs).
  assert (Hi : (i < 2048)%nat).
  { rewrite <- wordsListEn_length. apply nth_error_Some. congruence. }
  assert (Hb : length (bits_be 11 (Z.of_nat i)) = 11%nat) by apply bits_be_length.
  f_equal.
  - unfold word_of_group. rewrite (group_head _ _ Hb).
    rewrite be_value_bits_be by (change (2 ^ Z.of_nat 11) with 2048; lia).
    rewrite Nat2Z.id. now apply nth_error_nth.
  - rewrite <- seq_shift, map_map. etransitivity; [|exact IH].
    apply map_ext. intros k. unfold word_of_group.
    now rewrite (group_tail _ _ k Hb).
Qed.

(** What a successful [ToEntropy] went through. *)
Lemma ToEntropy_success (m : Mnemonic) (ent : option (list byte)) :
  ToEntropy wordsListEn sha256_Sum256 m = Ret (ent, None) ->
  exists idxs,
    at_positions wordsListEn (strings_Split (Words m) " ") idxs /\
    valid_words_num (Z.of_nat (length idxs)) /\
    ent = Some (decoded_entropy idxs) /\
    computed_checksum sha256_Sum256 (decoded_entropy idxs) = stored_checksum idxs.
Proof.
  intros H.
  destruct (validateWordsNum (len (strings_Split (Words m) " "))) eqn:E.
  { unfold ToEntropy, getBinaryStrings in H. rewrite E in H. discriminate. }
  apply validateWordsNum_None in E.
  destruct (getBinaryStrings_cases wordsListEn wordsListEn_length m E)
    as [Hbad|[idxs [Hpos Hok]]].
  { unfold ToEntropy in H. rewrite Hbad in H. discriminate. }
  assert (Hv : valid_words_num (Z.of_nat (length idxs))).
  { rewrite (at_positions_length _ _ _ Hpos). exact E. }
  rewrite (ToEntropy_at_positions wordsListEn sha256_Sum256 wordsListEn_length
             Sum256_length m idxs Hv Hok) in H.
  exists idxs. split; [exact Hpos|]. split; [exact Hv|].
  destruct (bits_eqb _ _) eqn:Hc; [|discriminate].
  apply bits_eqb_eq in Hc. split; [congruence | exact Hc].
Qed.

(** Decoding then encoding: the encoding of the entropy that [ToEntropy]
    returns is the mnemonic itself. *)
Lemma MnemonicFromEntropy_of_decoded (m : Mnemonic) (e : list byte) :
  ToEntropy wordsListEn sha256_Sum256 m = Ret (Some e, None) ->
  MnemonicFromEntropy wordsListEn sha256_Sum256 e = Ret (Some m, None).
Proof.
  intros H. destruct (ToEntropy_success m _ H) as [idxs [Hpos [Hv [He Hchk]]]].
  injection He as He.
  destruct (entropy_bit_len_cases _ Hv) as [H8 [Hvb [Hwc [Hcl _]]]].
  set (L := entropy_bit_len (length idxs)) in *.
  assert (Hlen : length e = (L / 8)%nat)
    by (rewrite He; apply decoded_entropy_length).
  assert (Hbits : bits_of_bytes e = firstn L (index_bits idxs)).
  { rewrite He. unfold decoded_entropy. fold L.
    apply bits_of_bytes_of_bits.
    rewrite length_firstn, (index_bits_length wordsListEn wordsListEn_length).
    unfold L, entropy_bit_len in *. lia. }
  assert (Hmb : mnemonic_bits sha256_Sum256 e = index_bits idxs).
  { unfold mnemonic_bits. rewrite Hbits.
    fold (computed_checksum sha256_Sum256 e). rewrite He, Hchk.
    unfold stored_checksum. fold L. apply firstn_skipn. }
  rewrite MnemonicFromEntropy_valid;
    [| exact wordsListEn_length | exact Sum256_length
     | unfold len; rewrite Hlen; exact Hvb].
  rewrite Hmb, Hlen, Hwc, (words_of_index_bits _ _ Hpos), strings_Join_Split.
  now destruct m.
Qed.

Hypothesis wordsListEn_sorted : strictly_sorted wordsListEn = true.
Hypothesis wordsListEn_no_spaces : no_spaces wordsListEn = true.

(** Encoding then decoding, on the mnemonic [MnemonicFromEntropy] builds. *)
Lemma ToEntropy_of_encoded (e : list byte) (m : Mnemonic) :
  MnemonicFromEntropy wordsListEn sha256_Sum256 e = Ret (Some m, None) ->
  valid_bits (8 * len e) /\
  ToEntropy wordsListEn sha256_Sum256 m = Ret (Some e, None).
Proof.
  intros H.
  assert (Hv : valid_bits (8 * len e)).
  { destruct (validateEntropyBitLen (len e * 8)) eqn:E.
    - unfold MnemonicFromEntropy in H. rewrite E in H. discriminate.
    - apply validateEntropyBitLen_None in E.
      now replace (8 * len e) with (len e * 8) by lia. }
  split; [exact Hv|].
  rewrite (MnemonicFromEntropy_valid wordsListEn sha256_Sum256
             wordsListEn_length Sum256_length e Hv) in H.
  injection H as <-.
  set (bits := mnemonic_bits sha256_Sum256 e).
  set (n := words_count (length e)).
  set (ws := map (word_of_group wordsListEn bits) (seq 0 n)).
  set (idxs := map (group_index bits) (seq 0 n)).
  pose proof (mnemonic_bits_length sha256_Sum256 Sum256_length e Hv) as Hbits.
  fold bits n in Hbits.
  destruct (words_count_valid wordsListEn wordsListEn_length e Hv) as [Hn Hent].
  fold n in Hn, Hent.
  clearbody n.
  assert (Hrange : Forall (fun k => 11 * (k + 1) <= length bits)%nat (seq 0 n))
    by (apply (seq_groups_in_range wordsListEn wordsListEn_length); lia).
  assert (Hsplit : strings_Split (strings_Join ws (lit " ")) " " = ws).
  { apply strings_Split_Join.
    - intros E. apply (f_equal (@length _)) in E. unfold ws in E.
      rewrite length_map, length_seq in E. cbn [length] in E.
      unfold valid_words_num in Hn. lia.
    - apply encoded_no_spaces. exact wordsListEn_no_spaces. }
  change (lit " ") with [" "%char] in Hsplit.
  assert (Hidx : length idxs = n) by (unfold idxs; now rewrite length_map, length_seq).
  assert (Hib : index_bits idxs = bits).
  { unfold idxs.
    rewrite (encoded_index_bits wordsListEn wordsListEn_length bits _ Hrange),
      concat_groups by lia.
    apply firstn_all2. lia. }
  rewrite (ToEntropy_at_positions wordsListEn sha256_Sum256 wordsListEn_length
             Sum256_length _ idxs).
  - unfold decoded_entropy, stored_checksum. rewrite Hidx, Hib, Hent.
    assert (Hfirst : firstn (8 * length e) bits = bits_of_bytes e).
    { unfold bits, mnemonic_bits. rewrite <- (bits_of_bytes_length e).
      now rewrite firstn_app, firstn_all, Nat.sub_diag, firstn_0, app_nil_r. }
    assert (Hskip : skipn (8 * length e) bits = computed_checksum sha256_Sum256 e).
    { unfold bits, mnemonic_bits, computed_checksum.
      rewrite <- (bits_of_bytes_length e) at 1.
      now rewrite skipn_app, skipn_all, Nat.sub_diag, skipn_0, app_nil_l. }
    rewrite Hfirst, Hskip.
    replace (8 * length e / 8)%nat with (length e)
      by (symmetry; rewrite Nat.mul_comm; apply Nat.div_mul; lia).
    rewrite bytes_of_bits_of_bytes, bits_eqb_refl. reflexivity.
  - now rewrite Hidx.
  - apply getBinaryStrings_found.
    + exact wordsListEn_length.
    + exact wordsListEn_sorted.
    + cbn [Words]. rewrite Hsplit. unfold len, ws.
      now rewrite length_map, length_seq.
    + cbn [Words]. rewrite Hsplit.
      now apply encoded_positions.
Qed.

End CodecMore.

Section PackageProperties.

Variable wordsListEn : list gostring.
Variable sha256_Sum256 : list byte -> list byte.
Variable Hash : Type.
Variable sha512_New : Hash.
Variable pbkdf2_Key : list byte -> list byte -> Z -> Z -> Hash -> list byte.
Variable RandSrc : Type.
Variable rand_Read : RandSrc -> list byte -> RandSrc * list byte * option error.

Hypothesis wordsListEn_length : length wordsListEn = 2048%nat.
Hypothesis Sum256_length : forall m, length (sha256_Sum256 m) = 32%nat.
Hypothesis wordsListEn_sorted : strictly_sorted wordsListEn = true.
Hypothesis wordsListEn_no_spaces : no_spaces wordsListEn = true.

(** [entropyChecksumBinStr] cuts the 256 digits of the hash at
    [len(slice)/4]: up to 256 it returns that many binary digits, beyond
    it the slice expression is out of range and the call panics. *)
Theorem entropyChecksumBinStr_bounds (slice_ : list byte) :
  (Z.quot (len slice_) 4 <= 256 ->
   exists c, entropyChecksumBinStr sha256_Sum256 slice_ = Ret c /\
             len c = Z.quot (len slice_) 4 /\ is_bin c = true) /\
  (256 < Z.quot (len slice_) 4 ->
   entropyChecksumBinStr sha256_Sum256 slice_ = Panic).
Proof using Sum256_length.
  clear wordsListEn_length wordsListEn_sorted wordsListEn_no_spaces.
  assert (Hh : len (bytesToBinaryString (sha256_Sum256 slice_)) = 256).
  { rewrite bytesToBinaryString_bits, len_map. unfold len.
    now rewrite bits_of_bytes_length, Sum256_length. }
  assert (Hq : 0 <= Z.quot (len slice_) 4)
    by (apply Z.quot_pos; [apply len_nonneg | lia]).
  unfold entropyChecksumBinStr. split; intros H.
  - rewrite slice_prefix by lia. eexists. split; [reflexivity|]. split.
    + unfold len at 1. rewrite length_firstn. unfold len in Hh. lia.
    + apply is_bin_firstn. rewrite bytesToBinaryString_bits.
      apply is_bin_char_of_bit.
  - unfold slice. rewrite Hh.
    replace (Z.quot (len slice_) 4 <=? 256) with false
      by (symmetry; apply Z.leb_gt; exact H).
    now rewrite andb_false_r.
Qed.

(** [MnemonicFromEntropy] returns a mnemonic exactly for the five valid
    lengths; for any other length, the empty slice included, it returns
    nil with [ErrEntropyBitLen]; it never panics. *)
Theorem MnemonicFromEntropy_total (e : list byte) :
  (valid_bits (8 * len e) ->
   exists m, MnemonicFromEntropy wordsListEn sha256_Sum256 e = Ret (Some m, None)) /\
  (~ valid_bits (8 * len e) ->
   MnemonicFromEntropy wordsListEn sha256_Sum256 e
   = Ret (None, Some ErrEntropyBitLen)).
Proof using wordsListEn_length Sum256_length.
  split; intros H.
  - eexists. apply MnemonicFromEntropy_valid; assumption.
  - unfold MnemonicFromEntropy.
    replace (len e * 8) with (8 * len e) by (clear; lia).
    now rewrite (validateEntropyBitLen_Some _ H).
Qed.

(** Every mnemonic that [MnemonicFromEntropy] returns is valid:
    [ToEntropy] gives the entropy back, [Validate] returns nil, [IsValid]
    is true and [GenerateSeed] derives a seed. *)
Theorem encoded_mnemonic_valid (e : list byte) (m : Mnemonic) :
  MnemonicFromEntropy wordsListEn sha256_Sum256 e = Ret (Some m, None) ->
  decode_succeeds wordsListEn sha256_Sum256 sha512_New pbkdf2_Key m e.
Proof using wordsListEn_length Sum256_length wordsListEn_sorted wordsListEn_no_spaces.
  intros H. apply decode_succeeds_intro.
  eapply ToEntropy_of_encoded; eassumption.
Qed.

(** [MnemonicFromEntropy] is injective: two entropies with the same
    mnemonic are equal. *)
Theorem MnemonicFromEntropy_injective (e1 e2 : list byte) (m : Mnemonic) :
  MnemonicFromEntropy wordsListEn sha256_Sum256 e1 = Ret (Some m, None) ->
  MnemonicFromEntropy wordsListEn sha256_Sum256 e2 = Ret (Some m, None) ->
  e1 = e2.
Proof using wordsListEn_length Sum256_length wordsListEn_sorted wordsListEn_no_spaces.
  intros H1 H2.
  pose proof (proj2 (ToEntropy_of_encoded wordsListEn sha256_Sum256
                       wordsListEn_length Sum256_length wordsListEn_sorted
                       wordsListEn_no_spaces e1 m H1)) as T1.
  pose proof (proj2 (ToEntropy_of_encoded wordsListEn sha256_Sum256
                       wordsListEn_length Sum256_length wordsListEn_sorted
                       wordsListEn_no_spaces e2 m H2)) as T2.
  congruence.
Qed.

(** Decoding then encoding: when [ToEntropy] accepts a mnemonic,
    [MnemonicFromEntropy] on the entropy it returns gives that very
    mnemonic, the same string of words. *)
Theorem decode_then_encode (m : Mnemonic) (e : list byte) :
  ToEntropy wordsListEn sha256_Sum256 m = Ret (Some e, None) ->
  MnemonicFromEntropy wordsListEn sha256_Sum256 e = Ret (Some m, None).
Proof using wordsListEn_length Sum256_length.
  apply MnemonicFromEntropy_of_decoded; assumption.
Qed.

(** [ToEntropy] is injective on the mnemonics it accepts: two mnemonics
    with the same entropy are the same string. *)
Theorem ToEntropy_injective (m1 m2 : Mnemonic) (e : list byte) :
  ToEntropy wordsListEn sha256_Sum256 m1 = Ret (Some e, None) ->
  ToEntropy wordsListEn sha256_Sum256 m2 = Ret (Some e, None) ->
  m1 = m2.
Proof using wordsListEn_length Sum256_length.
  intros H1 H2.
  apply (MnemonicFromEntropy_of_decoded wordsListEn sha256_Sum256
           wordsListEn_length Sum256_length) in H1, H2.
  congruence.
Qed.

(** A nil error of [ToEntropy] always comes with an entropy, never with a
    nil slice, and the entropy has one of the five valid lengths:
    [N*11 - N/3] bits for [N] words. *)
Theorem ToEntropy_result_size (m : Mnemonic) (ent : option (list byte)) :
  ToEntropy wordsListEn sha256_Sum256 m = Ret (ent, None) ->
  exists e : list byte,
    ent = Some e /\
    valid_bits (8 * len e) /\
    let N := len (strings_Split (Words m) " ") in
    valid_words_num N /\ 8 * len e = N * 11 - Z.quot N 3.
Proof using wordsListEn_length Sum256_length.
  intros H.
  destruct (ToEntropy_success wordsListEn sha256_Sum256 wordsListEn_length
              Sum256_length m ent H) as [idxs [Hpos [Hv [He _]]]].
  exists (decoded_entropy idxs). split; [exact He|].
  destruct (entropy_bit_len_cases _ Hv) as [_ [Hvb [_ [_ Hn]]]].
  pose proof (at_positions_length _ _ _ Hpos) as Hl.
  unfold len. rewrite decoded_entropy_length, <- Hl.
  split; [exact Hvb|]. cbv zeta. split; [exact Hv|].
  rewrite <- Hn. clear. lia.
Qed.

(** The four entry points of the decode path agree, on any word table:
    [Validate] returns the error of [ToEntropy], [IsValid] tells whether
    it is nil, and [GenerateSeed] returns it with a nil seed or, when it
    is nil, the derived key; and a panic of one is a panic of all. *)
Theorem entry_points_agree (m : Mnemonic) (p : gostring) :
  (forall ent err,
     ToEntropy wordsListEn sha256_Sum256 m = Ret (ent, err) ->
     Validate wordsListEn sha256_Sum256 m = Ret err /\
     IsValid wordsListEn sha256_Sum256 m
     = Ret (match err with None => true | Some _ => false end) /\
     GenerateSeed wordsListEn sha256_Sum256 Hash sha512_New pbkdf2_Key m p
     = Ret (match err with
            | Some e => (None, Some e)
            | None =>
                (Some (pbkdf2_Key (bytes_of_gostring (Words m))
                         (bytes_of_gostring (lit "mnemonic" ++ p))
                         2048 64 sha512_New), None)
            end)) /\
  (ToEntropy wordsListEn sha256_Sum256 m = Panic ->
   Validate wordsListEn sha256_Sum256 m = Panic /\
   IsValid wordsListEn sha256_Sum256 m = Panic /\
   GenerateSeed wordsListEn sha256_Sum256 Hash sha512_New pbkdf2_Key m p = Panic).
Proof using.
  split.
  - intros ent err H. unfold IsValid, GenerateSeed.
    rewrite Validate_ToEntropy, H. cbn [bind snd].
    repeat split. now destruct err.
  - intros H. unfold IsValid, GenerateSeed.
    rewrite Validate_ToEntropy, H. cbn. auto.
Qed.

(** [GenerateEntropy]: an invalid length is refused before the random
    source is read (the source is left as it was); a valid length with a
    successful read gives a buffer of exactly [bitLen] bits, which
    [MnemonicFromEntropy] accepts and [ToEntropy] gives back. *)
Theorem GenerateEntropy_feeds_encoder (r : RandSrc) (bitLen : Z) :
  (~ valid_bits bitLen ->
   GenerateEntropy RandSrc rand_Read r bitLen = (r, None, Some ErrEntropyBitLen)) /\
  (valid_bits bitLen ->
   forall r' buf,
     rand_Read r (repeat x00 (Z.to_nat (Z.quot bitLen 8))) = (r', buf, None) ->
     len buf = Z.quot bitLen 8 ->
     GenerateEntropy RandSrc rand_Read r bitLen = (r', Some buf, None) /\
     8 * len buf = bitLen /\
     exists m,
       MnemonicFromEntropy wordsListEn sha256_Sum256 buf = Ret (Some m, None) /\
       ToEntropy wordsListEn sha256_Sum256 m = Ret (Some buf, None)).
Proof using wordsListEn_length Sum256_length wordsListEn_sorted wordsListEn_no_spaces.
  split.
  - apply GenerateEntropy_invalid.
  - intros Hv r' buf Hr Hl.
    split; [now apply GenerateEntropy_valid|].
    assert (Hb : 8 * len buf = bitLen).
    { rewrite Hl. clear - Hv. unfold valid_bits in Hv.
      destruct Hv as [H|[H|[H|[H|H]]]]; subst bitLen; reflexivity. }
    split; [exact Hb|].
    assert (Hv' : valid_bits (8 * len buf)) by (now rewrite Hb).
    eexists. split; [apply MnemonicFromEntropy_valid; assumption|].
    eapply ToEntropy_of_encoded; try eassumption.
    apply MnemonicFromEntropy_valid; assumption.
Qed.

(** [MnemonicFromWordsNum]: an invalid words number is refused before the
    random source is read; for a valid one, whatever the read returns, the
    mnemonic has exactly that number of words and decodes to the buffer. *)
Theorem MnemonicFromWordsNum_words (r : RandSrc) (wordsNum : Z) :
  (~ valid_words_num wordsNum ->
   MnemonicFromWordsNum wordsListEn sha256_Sum256 RandSrc rand_Read r wordsNum
   = (r, Ret (None, Some ErrWordsNum))) /\
  (valid_words_num wordsNum ->
   forall r' buf err,
     rand_Read r (repeat x00
                    (Z.to_nat (Z.quot (wordsNum * 11 - Z.quot wordsNum 3) 8)))
     = (r', buf, err) ->
     len buf = Z.quot (wordsNum * 11 - Z.quot wordsNum 3) 8 ->
     exists m,
       MnemonicFromWordsNum wordsListEn sha256_Sum256 RandSrc rand_Read r wordsNum
       = (r', Ret (Some m, None)) /\
       len (strings_Split (Words m) " ") = wordsNum /\
       ToEntropy wordsListEn sha256_Sum256 m = Ret (Some buf, None)).
Proof using wordsListEn_length Sum256_length wordsListEn_sorted wordsListEn_no_spaces.
  split.
  - intros H. unfold MnemonicFromWordsNum.
    now rewrite (validateWordsNum_Some _ H).
  - intros Hv r' buf err Hr Hl.
    assert (Hb : valid_bits (wordsNum * 11 - Z.quot wordsNum 3)
                 /\ 8 * len buf = wordsNum * 11 - Z.quot wordsNum 3).
    { rewrite Hl. clear - Hv. unfold valid_words_num in Hv. unfold valid_bits.
      destruct Hv as [H|[H|[H|[H|H]]]]; subst wordsNum; cbv; auto 6. }
    destruct Hb as [Hb Hlen].
    assert (Hv' : valid_bits (8 * len buf)) by (now rewrite Hlen).
    pose proof (MnemonicFromEntropy_valid wordsListEn sha256_Sum256
                  wordsListEn_length Sum256_length buf Hv') as Hm.
    eexists. split; [|split].
    + unfold MnemonicFromWordsNum.
      rewrite (proj2 (validateWordsNum_None _) Hv).
      rewrite (GenerateEntropy_valid RandSrc rand_Read r r' _ buf err Hb Hr).
      cbn [elems]. f_equal. exact Hm.
    + pose proof (ToEntropy_of_encoded wordsListEn sha256_Sum256
                    wordsListEn_length Sum256_length wordsListEn_sorted
                    wordsListEn_no_spaces buf _ Hm) as [_ Ht].
      destruct (ToEntropy_success wordsListEn sha256_Sum256 wordsListEn_length
                  Sum256_length _ _ Ht) as [idxs [Hpos [Hvn [He _]]]].
      injection He as He.
      destruct (entropy_bit_len_cases _ Hvn) as [_ [_ [_ [_ Hn]]]].
      pose proof (at_positions_length _ _ _ Hpos) as Hlw.
      pose proof (decoded_entropy_length idxs) as Hdl. rewrite <- He in Hdl.
      unfold len in *. rewrite Hdl in Hlen. rewrite <- Hlw.
      assert (Hc : length idxs = 12%nat \/ length idxs = 15%nat \/
                   length idxs = 18%nat \/ length idxs = 21%nat \/
                   length idxs = 24%nat)
        by (clear - Hvn; unfold valid_words_num in Hvn; lia).
      clear - Hv Hc Hlen. unfold valid_words_num in Hv.
      destruct Hc as [Hc|[Hc|[Hc|[Hc|Hc]]]]; rewrite Hc in Hlen |- *;
        destruct Hv as [H|[H|[H|[H|H]]]]; subst wordsNum;
        first [reflexivity | cbv in Hlen; discriminate].
    + eapply ToEntropy_of_encoded; eassumption.
Qed.

End PackageProperties.

Lemma entropyChecksumBinStr_bounds_witness :
  (exists c, entropyChecksumBinStr Demo.sum256 Demo.entropy = Ret c /\
             len c = Z.quot (len Demo.entropy) 4 /\ is_bin c = true) /\
  entropyChecksumBinStr Demo.sum256 (repeat x00 1028) = Panic.
Proof.
  split.
  - apply (proj1 (entropyChecksumBinStr_bounds Demo.sum256
                    (fun m => eq_refl) Demo.entropy)).
    vm_compute. discriminate.
  - apply (proj2 (entropyChecksumBinStr_bounds Demo.sum256
                    (fun m => eq_refl) (repeat x00 1028))).
    vm_compute. reflexivity.
Defined.

Lemma MnemonicFromEntropy_total_witness :
  (exists m, MnemonicFromEntropy Demo.words Demo.sum256 Demo.entropy
             = Ret (Some m, None)) /\
  MnemonicFromEntropy Demo.words Demo.sum256 [] = Ret (None, Some ErrEntropyBitLen).
Proof.
  assert (H1 : length Demo.words = 2048%nat) by (vm_compute; reflexivity).
  assert (H2 : forall m, length (Demo.sum256 m) = 32%nat) by (intros m; reflexivity).
  split.
  - apply (proj1 (MnemonicFromEntropy_total Demo.words Demo.sum256 H1 H2 Demo.entropy)).
    left. reflexivity.
  - apply (proj2 (MnemonicFromEntropy_total Demo.words Demo.sum256 H1 H2 [])).
    vm_compute. intros [H|[H|[H|[H|H]]]]; discriminate.
Defined.

Lemma encoded_mnemonic_valid_witness :
  decode_succeeds Demo.words Demo.sum256 tt Demo.key Demo.good Demo.entropy.
Proof.
  apply (encoded_mnemonic_valid Demo.words Demo.sum256 unit tt Demo.key).
  - vm_compute. reflexivity.
  - intros m. reflexivity.
  - vm_compute. reflexivity.
  - vm_compute. reflexivity.
  - vm_compute. reflexivity.
Defined.

Lemma MnemonicFromEntropy_injective_witness :
  Demo.entropy = bytes_of_bits 16 (repeat false 128).
Proof.
  apply (MnemonicFromEntropy_injective Demo.words Demo.sum256) with (m := Demo.good).
  - vm_compute. reflexivity.
  - intros m. reflexivity.
  - vm_compute. reflexivity.
  - vm_compute. reflexivity.
  - vm_compute. reflexivity.
  - vm_compute. reflexivity.
Defined.

Lemma decode_then_encode_witness :
  MnemonicFromEntropy Demo.words Demo.sum256 Demo.entropy
  = Ret (Some Demo.good, None).
Proof.
  apply (decode_then_encode Demo.words Demo.sum256).
  - vm_compute. reflexivity.
  - intros m. reflexivity.
  - vm_compute. reflexivity.
Defined.

Lemma ToEntropy_injective_witness :
  Demo.good = MnemonicFromString (Words Demo.good).
Proof.
  apply (ToEntropy_injective Demo.words Demo.sum256) with (e := Demo.entropy).
  - vm_compute. reflexivity.
  - intros m. reflexivity.
  - vm_compute. reflexivity.
  - vm_compute. reflexivity.
Defined.

Lemma ToEntropy_result_size_witness :
  exists e : list byte,
    Some Demo.entropy = Some e /\
    valid_bits (8 * len e) /\
    let N := len (strings_Split (Words Demo.good) " ") in
    valid_words_num N /\ 8 * len e = N * 11 - Z.quot N 3.
Proof.
  apply (ToEntropy_result_size Demo.words Demo.sum256).
  - vm_compute. reflexivity.
  - intros m. reflexivity.
  - vm_compute. reflexivity.
Defined.

Lemma entry_points_agree_witness :
  Validate Demo.words Demo.sum256 Demo.tampered = Ret (Some ErrChecksum) /\
  IsValid Demo.words Demo.sum256 Demo.tampered = Ret false /\
  GenerateSeed Demo.words Demo.sum256 unit tt Demo.key Demo.tampered (lit "TREZOR")
  = Ret (None, Some ErrChecksum).
Proof.
  apply (proj1 (entry_points_agree Demo.words Demo.sum256 unit tt Demo.key
                  Demo.tampered (lit "TREZOR")) None (Some ErrChecksum)).
  vm_compute. reflexivity.
Defined.

Lemma GenerateEntropy_feeds_encoder_witness :
  GenerateEntropy unit Demo.read_ok tt 127 = (tt, None, Some ErrEntropyBitLen) /\
  (GenerateEntropy unit Demo.read_ok tt 128 = (tt, Some (repeat x2a 16), None) /\
   8 * len (repeat x2a 16) = 128 /\
   exists m,
     MnemonicFromEntropy Demo.words Demo.sum256 (repeat x2a 16) = Ret (Some m, None) /\
     ToEntropy Demo.words Demo.sum256 m = Ret (Some (repeat x2a 16), None)).
Proof.
  assert (P := fun H1 H2 H3 H4 =>
                 GenerateEntropy_feeds_encoder Demo.words Demo.sum256 unit
                   Demo.read_ok H1 H2 H3 H4 tt).
  assert (H1 : length Demo.words = 2048%nat) by (vm_compute; reflexivity).
  assert (H2 : forall m, length (Demo.sum256 m) = 32%nat) by (intros m; reflexivity).
  assert (H3 : strictly_sorted Demo.words = true) by (vm_compute; reflexivity).
  assert (H4 : no_spaces Demo.words = true) by (vm_compute; reflexivity).
  split.
  - apply (proj1 (P H1 H2 H3 H4 127)).
    intros [H|[H|[H|[H|H]]]]; discriminate.
  - apply (proj2 (P H1 H2 H3 H4 128)).
    + left. reflexivity.
    + reflexivity.
    + reflexivity.
Defined.

Lemma MnemonicFromWordsNum_words_witness :
  MnemonicFromWordsNum Demo.words Demo.sum256 unit Demo.read_ok tt 11
  = (tt, Ret (None, Some ErrWordsNum)) /\
  exists m,
    MnemonicFromWordsNum Demo.words Demo.sum256 unit Demo.read_ok tt 12
    = (tt, Ret (Some m, None)) /\
    len (strings_Split (Words m) " ") = 12 /\
    ToEntropy Demo.words Demo.sum256 m = Ret (Some (repeat x2a 16), None).
Proof.
  assert (P := fun H1 H2 H3 H4 =>
                 MnemonicFromWordsNum_words Demo.words Demo.sum256 unit
                   Demo.read_ok H1 H2 H3 H4 tt).
  assert (H1 : length Demo.words = 2048%nat) by (vm_compute; reflexivity).
  assert (H2 : forall m, length (Demo.sum256 m) = 32%nat) by (intros m; reflexivity).
  assert (H3 : strictly_sorted Demo.words = true) by (vm_compute; reflexivity).
  assert (H4 : no_spaces Demo.words = true) by (vm_compute; reflexivity).
  split.
  - apply (proj1 (P H1 H2 H3 H4 11)).
    intros [H|[H|[H|[H|H]]]]; discriminate.
  - apply (proj2 (P H1 H2 H3 H4 12)) with (err := None).
    + left. reflexivity.
    + reflexivity.
    + reflexivity.
Defined.

(** *** Spaces are counted, not trimmed *)

Lemma strings_Split_app_length (a b : gostring) :
  (length (strings_Split (a ++ b) " ") + 1
   = length (strings_Split a " ") + length (strings_Split b " "))%nat.
Proof.
  induction a as [|c a IH]; [cbn; lia|].
  cbn [app strings_Split]. destruct (c =? " ")%char.
  - cbn [length]. lia.
  - destruct (strings_Split (a ++ b) " ") as [|w ws] eqn:E;
      [now apply strings_Split_nonempty in E|].
    destruct (strings_Split a " ") as [|w' ws'] eqn:E';
      [now apply strings_Split_nonempty in E'|].
    cbn [length] in *. lia.
Qed.

(** One space more, anywhere in a mnemonic with a valid number of words
    (in front, at the end, or doubling a separator), makes one token more,
    and every entry point of the decode path returns the words-number
    error, whatever the table and the words. *)
Theorem extra_space_rejected (wordsListEn : list gostring)
    (sha256_Sum256 : list byte -> list byte) (Hash : Type) (sha512_New : Hash)
    (pbkdf2_Key : list byte -> list byte -> Z -> Z -> Hash -> list byte)
    (a b : gostring) :
  valid_words_num (len (strings_Split (a ++ b) " ")) ->
  len (strings_Split (a ++ " "%char :: b) " ")
  = len (strings_Split (a ++ b) " ") + 1 /\
  decode_fails wordsListEn sha256_Sum256 sha512_New pbkdf2_Key
    {| Words := a ++ " "%char :: b |} ErrWordsNum.
Proof.
  intros Hv.
  assert (Hl : len (strings_Split (a ++ " "%char :: b) " ")
               = len (strings_Split (a ++ b) " ") + 1).
  { unfold len. rewrite strings_Split_app_sep, length_app.
    pose proof (strings_Split_app_length a b). lia. }
  split; [exact Hl|].
  apply decode_fails_intro, ToEntropy_words_num. cbn [Words]. rewrite Hl.
  unfold valid_words_num in *. lia.
Qed.

Lemma extra_space_rejected_witness :
  len (strings_Split (Words Demo.good ++ " "%char :: []) " ")
  = len (strings_Split (Words Demo.good ++ []) " ") + 1 /\
  decode_fails Demo.words Demo.sum256 tt Demo.key
    {| Words := Words Demo.good ++ " "%char :: [] |} ErrWordsNum.
Proof.
  apply extra_space_rejected. vm_compute. left. reflexivity.
Defined.
